(** * Thread manager: flattening a comment tree and updating it in place

    A shallow embedding of
    [src/app/post-thread-page/helpers/thread-manager.ts].

    The TypeScript module works on JavaScript objects that are shared by
    reference: the [Post] objects of the comment tree are referenced from
    the [children] arrays of the threads, every [Thread] object is
    referenced both from the [Map] of the manager and from the array the
    [threads] getter caches, and [hideComment] writes into a [Post] it was
    handed.  The embedding therefore keeps an explicit store of objects,
    addressed by allocation index, and threads it through every
    operation. *)

From Stdlib Require Import ZArith String List Lia Bool.
From stdpp Require Import base list.
Import ListNotations.
Local Open Scope string_scope.
Local Open Scope Z_scope.
Local Open Scope list_scope.

(** ** Data model *)

(** An object reference: the index of the object in the store of its
    kind.  Allocation appends to the store, so a reference that is at
    least the length of a store has never been handed out. *)
Abbreviation addr := nat (only parsing).

(** What a slot of a [Post[]] array can hold at run time: a reference to
    a [Post] object, or [undefined]. *)
Inductive value : Type :=
| undefined
| ref (a : addr).

(** [type Post].  [Comments] is [Post[] | null]; the module never writes
    into a [Comments] array, so the array is kept by value.
    [CommentCount] is a JavaScript number, a binary64 value, that only
    ever holds an integer here; it is kept as an integer.  The [+ 1] and
    [- 1] of the source are exact, and are the integer operations used in
    this model, as long as the count is a safe integer ([safe_integer]
    below): the statements about the count a reply or a hide yields on a
    well-formed thread assume that. *)
Record Post : Type := mkPost {
  PostHashHex : string;
  Comments : option (list addr);
  CommentCount : Z;
  IsHidden : bool
}.

(** [type Thread].  The [children] array of a thread is reachable only
    through its [Thread] object inside this module, so it is a field of
    the object. *)
Record Thread : Type := mkThread {
  parent : addr;
  children : list value
}.

(** ** The ordered map [Map<string, Thread>]

    A JavaScript [Map] iterates in insertion order; [set] on a key that is
    present replaces the value and keeps the position of the key. *)
Module JsMap.
Definition t : Type := list (string * addr).

Fixpoint get (k : string) (m : t) : option addr :=
  match m with
  | [] => None
  | (k', v) :: m' => if String.eqb k' k then Some v else get k m'
  end.

Fixpoint set (k : string) (v : addr) (m : t) : t :=
  match m with
  | [] => [(k, v)]
  | (k', v') :: m' =>
      if String.eqb k' k then (k', v) :: m' else (k', v') :: set k v m'
  end.

Fixpoint delete (k : string) (m : t) : t :=
  match m with
  | [] => []
  | (k', v) :: m' =>
      if String.eqb k' k then m' else (k', v) :: delete k m'
  end.

Definition keys (m : t) : list string := map fst m.
Definition values (m : t) : list addr := map snd m.
Definition size (m : t) : nat := length m.
End JsMap.

(** ** JavaScript array primitives *)
Module JsArray.
(** An index argument of [slice]: negative counts from the end, and the
    result is clamped to [0 .. len]. *)
Definition clamp (len i : Z) : Z :=
  if i <? 0 then Z.max (len + i) 0 else Z.min i len.

(** [Array.prototype.slice(start, end)]. *)
Definition slice {A : Type} (l : list A) (start stop : Z) : list A :=
  let len := Z.of_nat (length l) in
  let from := clamp len start in
  let to := clamp len stop in
  firstn (Z.to_nat (to - from)) (skipn (Z.to_nat from) l).

(** [arr[i]] for an integer [i]: [undefined] outside the array. *)
Definition at_index (l : list value) (i : Z) : value :=
  if i <? 0 then undefined
  else match l !! Z.to_nat i with
       | Some v => v
       | None => undefined
       end.

(** [arr[0]] of a [Post[]]. *)
Definition first (l : list addr) : value :=
  match l with
  | [] => undefined
  | a :: _ => ref a
  end.
End JsArray.

(** ** Store and manager state *)

(** The three object stores ([Post] objects, [Thread] objects, the arrays
    built by the [threads] getter) and the two fields of the one
    [ThreadManager] instance. *)
Record State : Type := mkState {
  posts : list Post;
  threadObjs : list Thread;
  arrays : list (list addr);
  threadMap : JsMap.t;
  threadArrayCache : option addr
}.

Definition with_posts (f : list Post -> list Post) (s : State) : State :=
  mkState (f (posts s)) (threadObjs s) (arrays s) (threadMap s)
          (threadArrayCache s).
Definition with_threadObjs (f : list Thread -> list Thread) (s : State)
  : State :=
  mkState (posts s) (f (threadObjs s)) (arrays s) (threadMap s)
          (threadArrayCache s).
Definition with_arrays (f : list (list addr) -> list (list addr))
  (s : State) : State :=
  mkState (posts s) (threadObjs s) (f (arrays s)) (threadMap s)
          (threadArrayCache s).
Definition with_threadMap (f : JsMap.t -> JsMap.t) (s : State) : State :=
  mkState (posts s) (threadObjs s) (arrays s) (f (threadMap s))
          (threadArrayCache s).
Definition with_cache (c : option addr) (s : State) : State :=
  mkState (posts s) (threadObjs s) (arrays s) (threadMap s) c.

(** ** Outcomes and the state monad

    A call either returns, or throws a [TypeError] (a property read on
    [undefined]); in both cases the store is the one reached at that
    point.  [OutOfFuel] stands for a recursion deeper than the given
    bound, [Dangling] for a reference that is not in the store, which a
    well-formed store excludes. *)
Inductive Res (A : Type) : Type :=
| Ret (a : A) (s : State)
| Throw (s : State)
| OutOfFuel
| Dangling.
Arguments Ret {A} a s.
Arguments Throw {A} s.
Arguments OutOfFuel {A}.
Arguments Dangling {A}.

Definition M (A : Type) : Type := State -> Res A.

Definition ret {A : Type} (a : A) : M A := fun s => Ret a s.

Definition bind {A B : Type} (m : M A) (k : A -> M B) : M B :=
  fun s =>
    match m s with
    | Ret a s' => k a s'
    | Throw s' => Throw s'
    | OutOfFuel => OutOfFuel
    | Dangling => Dangling
    end.

Declare Scope js_scope.
Delimit Scope js_scope with js.
Notation "x <- m ;; k" := (bind m (fun x => k))
  (at level 100, m at next level, right associativity) : js_scope.
Notation "m ;; k" := (bind m (fun _ => k))
  (at level 100, right associativity) : js_scope.
Local Open Scope js_scope.

Definition type_error {A : Type} : M A := fun s => Throw s.
Definition out_of_fuel {A : Type} : M A := fun _ => OutOfFuel.
Definition dangling {A : Type} : M A := fun _ => Dangling.

Definition gets {A : Type} (f : State -> A) : M A := fun s => Ret (f s) s.
Definition modify (f : State -> State) : M unit := fun s => Ret tt (f s).

(** Reading the fields of a [Post] object. *)
Definition get_post (a : addr) : M Post :=
  fun s =>
    match posts s !! a with
    | Some p => Ret p s
    | None => Dangling
    end.

(** An object literal [{ ...p }]: a new [Post] object. *)
Definition new_post (p : Post) : M addr :=
  fun s => Ret (length (posts s)) (with_posts (fun ps => ps ++ [p]) s).

(** A field write [a.f = v] on a [Post] object. *)
Definition put_post (a : addr) (p : Post) : M unit :=
  modify (with_posts (fun ps => <[a := p]> ps)).

Definition get_thread (t : addr) : M Thread :=
  fun s =>
    match threadObjs s !! t with
    | Some T => Ret T s
    | None => Dangling
    end.

Definition new_thread (T : Thread) : M addr :=
  fun s =>
    Ret (length (threadObjs s)) (with_threadObjs (fun ts => ts ++ [T]) s).

Definition put_thread (t : addr) (T : Thread) : M unit :=
  modify (with_threadObjs (fun ts => <[t := T]> ts)).

(** [thread.parent = v] and [thread.children = v]. *)
Definition set_parent (t : addr) (v : addr) : M unit :=
  T <- get_thread t ;; put_thread t (mkThread v (children T)).

Definition set_children (t : addr) (v : list value) : M unit :=
  T <- get_thread t ;; put_thread t (mkThread (parent T) v).

Definition with_CommentCount (c : Z) (p : Post) : Post :=
  mkPost (PostHashHex p) (Comments p) c (IsHidden p).

Definition with_IsHidden (b : bool) (p : Post) : Post :=
  mkPost (PostHashHex p) (Comments p) (CommentCount p) b.

(** [arr.forEach(f)]. *)
Fixpoint forEach {A : Type} (l : list A) (f : A -> M unit) : M unit :=
  match l with
  | [] => ret tt
  | x :: l' => f x ;; forEach l' f
  end.

(** ** The flattener *)

(** [walkSubcomments(subComment, cb)].  The callback runs first, on
    whatever was passed; the guard [Array.isArray(subComment?.Comments)]
    then decides whether to descend into [subComment.Comments[0]]. *)
Fixpoint walkSubcomments (fuel : nat) (subComment : value)
  (cb : value -> M unit) : M unit :=
  match fuel with
  | O => out_of_fuel
  | S fuel' =>
      cb subComment ;;
      match subComment with
      | undefined => ret tt
      | ref a =>
          p <- get_post a ;;
          match Comments p with
          | None => ret tt
          | Some arr => walkSubcomments fuel' (JsArray.first arr) cb
          end
      end
  end.

(** [thread.children.push(subComment)]. *)
Definition push_child (thread : addr) (subComment : value) : M unit :=
  T <- get_thread thread ;;
  set_children thread (children T ++ [subComment]).

(** [flattenThread(parent)]: returns the new [Thread] object. *)
Definition flattenThread (fuel : nat) (parent : addr) : M addr :=
  thread <- new_thread (mkThread parent []) ;;
  p <- get_post parent ;;
  match Comments p with
  | None => ret tt
  | Some arr =>
      forEach arr (fun comment =>
        walkSubcomments fuel (ref comment) (push_child thread))
  end ;;
  ret thread.

(** ** The thread manager *)

Definition new_array (l : list addr) : M addr :=
  fun s => Ret (length (arrays s)) (with_arrays (fun a => a ++ [l]) s).

Definition get_array (a : addr) : M (list addr) :=
  fun s =>
    match arrays s !! a with
    | Some l => Ret l s
    | None => Dangling
    end.

(** [get threadCount()]. *)
Definition threadCount : M nat :=
  gets (fun s => JsMap.size (threadMap s)).

(** [get threads()]: the cached array if there is one, else a new array
    of the values of the map, which becomes the cache. *)
Definition threads : M addr :=
  cache <- gets threadArrayCache ;;
  match cache with
  | Some a => ret a
  | None =>
      vals <- gets (fun s => JsMap.values (threadMap s)) ;;
      a <- new_array vals ;;
      modify (with_cache (Some a)) ;;
      ret a
  end.

(** [getThread(parentPostHashHex)]: [None] is [undefined]. *)
Definition getThread (parentPostHashHex : string) : M (option addr) :=
  gets (fun s => JsMap.get parentPostHashHex (threadMap s)).

(** [if (this.threadArrayCache) { this.threadArrayCache = undefined; }] *)
Definition bust_cache : M unit :=
  cache <- gets threadArrayCache ;;
  match cache with
  | Some _ => modify (with_cache None)
  | None => ret tt
  end.

(** [this.threadMap.set(k, v)]. *)
Definition map_set (k : string) (v : addr) : M unit :=
  modify (with_threadMap (JsMap.set k v)).

(** [removeThread(parentPostHashHex)]. *)
Definition removeThread (parentPostHashHex : string) : M unit :=
  bust_cache ;;
  modify (with_threadMap (JsMap.delete parentPostHashHex)).

(** [appendComment(comment)]. *)
Definition appendComment (fuel : nat) (comment : addr) : M unit :=
  bust_cache ;;
  c <- get_post comment ;;
  thread <- flattenThread fuel comment ;;
  map_set (PostHashHex c) thread.

(** [addThreads(comments)]: nothing unless [comments] is an array. *)
Definition addThreads (fuel : nat) (comments : option (list addr))
  : M unit :=
  match comments with
  | None => ret tt
  | Some l => forEach l (appendComment fuel)
  end.

(** [prependComment(comment)]. *)
Definition prependComment (fuel : nat) (comment : addr) : M unit :=
  currentThreads <- threads ;;
  bust_cache ;;
  modify (with_threadMap (fun _ => [])) ;;
  c <- get_post comment ;;
  thread <- flattenThread fuel comment ;;
  map_set (PostHashHex c) thread ;;
  arr <- get_array currentThreads ;;
  forEach arr (fun thread =>
    T <- get_thread thread ;;
    p <- get_post (parent T) ;;
    map_set (PostHashHex p) thread).

(** [arr.findIndex((child) => child.PostHashHex === id)], counting from
    [i]: [-1] when no element matches; reading [PostHashHex] of an
    [undefined] element throws. *)
Fixpoint findIndex_from (i : Z) (l : list value) (id : string) : M Z :=
  match l with
  | [] => ret (-1)
  | undefined :: _ => type_error
  | ref a :: l' =>
      child <- get_post a ;;
      if String.eqb (PostHashHex child) id then ret i
      else findIndex_from (i + 1) l' id
  end.

Definition findIndex (l : list value) (id : string) : M Z :=
  findIndex_from 0 l id.

(** [thread.children.length ? thread.children[length - 1] : null];
    [None] is [null]. *)
Definition last_child (ch : list value) : option value :=
  match ch with
  | [] => None
  | _ :: _ => Some (JsArray.at_index ch (Z.of_nat (length ch) - 1))
  end.

(** Truthiness of [lastChild]: [null] and [undefined] are falsy, an
    object is truthy. *)
Definition truthy (v : option value) : bool :=
  match v with
  | Some (ref _) => true
  | _ => false
  end.

(** [lastChild?.PostHashHex]: [None] is [undefined]. *)
Definition opt_PostHashHex (v : option value) : M (option string) :=
  match v with
  | Some (ref a) => p <- get_post a ;; ret (Some (PostHashHex p))
  | _ => ret None
  end.

(** [x === y] where [x] is a string and [y] a string or [undefined]. *)
Definition strict_eq (x : string) (y : option string) : bool :=
  match y with
  | Some y' => String.eqb x y'
  | None => false
  end.

(** [thread.parent = { ...thread.parent,
      CommentCount: thread.parent.CommentCount + d }], for [d] one of
    [1] and [-1]; the sum is the source's on a safe integer. *)
Definition bump_parent (thread : addr) (d : Z) : M unit :=
  T <- get_thread thread ;;
  par <- get_post (parent T) ;;
  a <- new_post (with_CommentCount (CommentCount par + d) par) ;;
  set_parent thread a.

(** [thread.parent = { ...thread.parent }] *)
Definition copy_parent (thread : addr) : M unit :=
  T <- get_thread thread ;;
  par <- get_post (parent T) ;;
  a <- new_post par ;;
  set_parent thread a.

(** [addReplyToComment(threadPostHashHex, replyingToComment, reply)]. *)
Definition addReplyToComment (threadPostHashHex : string)
  (replyingToComment reply : addr) : M unit :=
  thread <- gets (fun s => JsMap.get threadPostHashHex (threadMap s)) ;;
  match thread with
  | None => type_error
  | Some thread =>
      T <- get_thread thread ;;
      let lastChild := last_child (children T) in
      rc <- get_post replyingToComment ;;
      if String.eqb (PostHashHex rc) threadPostHashHex
         && negb (truthy lastChild)
      then
        bump_parent thread 1 ;;
        set_children thread [ref reply]
      else
        lastId <- opt_PostHashHex lastChild ;;
        if strict_eq (PostHashHex rc) lastId then
          match lastChild with
          | Some (ref l) =>
              lc <- get_post l ;;
              prevLastChild <-
                new_post (with_CommentCount (CommentCount lc + 1) lc) ;;
              copy_parent thread ;;
              T <- get_thread thread ;;
              set_children thread
                (JsArray.slice (children T) 0
                   (Z.of_nat (length (children T)) - 1)
                 ++ [ref prevLastChild; ref reply])
          | _ => type_error
          end
        else if String.eqb (PostHashHex rc) threadPostHashHex then
          bump_parent thread 1
        else
          replaceNode <-
            new_post (with_CommentCount (CommentCount rc + 1) rc) ;;
          T <- get_thread thread ;;
          indexToReplace <- findIndex (children T) (PostHashHex rc) ;;
          copy_parent thread ;;
          T <- get_thread thread ;;
          set_children thread
            (JsArray.slice (children T) 0 indexToReplace
             ++ [ref replaceNode]
             ++ JsArray.slice (children T) (indexToReplace + 1)
                  (Z.of_nat (length (children T))))
  end.

(** [hideComment(commentToHide, parentComment, threadPostHashHex)]. *)
Definition hideComment (commentToHide parentComment : addr)
  (threadPostHashHex : string) : M unit :=
  thread <- getThread threadPostHashHex ;;
  c <- get_post commentToHide ;;
  put_post commentToHide (with_IsHidden true c) ;;
  pc <- get_post parentComment ;;
  if String.eqb (PostHashHex pc) threadPostHashHex then
    match thread with
    | None => type_error
    | Some thread => bump_parent thread (-1)
    end
  else
    match thread with
    | None => type_error
    | Some thread =>
        T <- get_thread thread ;;
        indexToDecrement <- findIndex (children T) (PostHashHex pc) ;;
        match JsArray.at_index (children T) indexToDecrement with
        | undefined => type_error
        | ref x =>
            px <- get_post x ;;
            a <- new_post (with_CommentCount (CommentCount px - 1) px) ;;
            T <- get_thread thread ;;
            set_children thread
              (<[Z.to_nat indexToDecrement := ref a]> (children T))
        end
    end.

(** [reset()]. *)
Definition reset : M unit :=
  modify (with_threadMap (fun _ => [])) ;;
  modify (with_cache None).

(** [new ThreadManager(rootPost)]: the field initialisers, then
    [this.addThreads(rootPost.Comments)]. *)
Definition constructor (fuel : nat) (rootPost : addr) : M unit :=
  modify (with_threadMap (fun _ => [])) ;;
  modify (with_cache None) ;;
  root <- get_post rootPost ;;
  addThreads fuel (Comments root).

(** ** What the flattener computes

    The sequence of values [walkSubcomments] hands to its callback,
    read off the store of posts: [None] when the walk does not return
    within the bound or meets a reference outside the store. *)
Fixpoint chain (fuel : nat) (ps : list Post) (v : value)
  : option (list value) :=
  match fuel with
  | O => None
  | S fuel' =>
      match v with
      | undefined => Some [undefined]
      | ref a =>
          match ps !! a with
          | None => None
          | Some p =>
              match Comments p with
              | None => Some [v]
              | Some arr =>
                  match chain fuel' ps (JsArray.first arr) with
                  | Some ch => Some (v :: ch)
                  | None => None
                  end
              end
          end
      end
  end.

(** The chains of the elements of a [Comments] array, one after the
    other. *)
Fixpoint chains (fuel : nat) (ps : list Post) (l : list addr)
  : option (list value) :=
  match l with
  | [] => Some []
  | a :: l' =>
      match chain fuel ps (ref a), chains fuel ps l' with
      | Some ch, Some rest => Some (ch ++ rest)
      | _, _ => None
      end
  end.

(** The [children] of [flattenThread(parent)]. *)
Definition flat_children (fuel : nat) (ps : list Post) (parent : addr)
  : option (list value) :=
  match ps !! parent with
  | None => None
  | Some p =>
      match Comments p with
      | None => Some []
      | Some arr => chains fuel ps arr
      end
  end.

(** The first-child chain that starts at [v] ends, inside the store. *)
Inductive walk_ends (ps : list Post) : value -> Prop :=
| walk_ends_undefined : walk_ends ps undefined
| walk_ends_null (a : addr) (p : Post) :
    ps !! a = Some p -> Comments p = None -> walk_ends ps (ref a)
| walk_ends_step (a : addr) (p : Post) (arr : list addr) :
    ps !! a = Some p -> Comments p = Some arr ->
    walk_ends ps (JsArray.first arr) -> walk_ends ps (ref a).

(** [parent] is a post of the store and each of its comments starts a
    chain that ends: the comment tree below [parent] is finite along
    the first-child links the flattener follows. *)
Definition flattenable (ps : list Post) (parent : addr) : Prop :=
  exists p, ps !! parent = Some p /\
    forall arr, Comments p = Some arr ->
                Forall (fun a => walk_ends ps (ref a)) arr.

(** ** Vocabulary of the statements *)

(** [Number.MAX_SAFE_INTEGER], 2^53 - 1. *)
Definition MAX_SAFE_INTEGER : Z := 9007199254740991.

(** [Number.isSafeInteger(c)]: on such a count the [+ 1] and [- 1] of the
    source, which are additions of binary64 numbers, are exact, and are
    the integer operations of the model. *)
Definition safe_integer (c : Z) : Prop :=
  - MAX_SAFE_INTEGER <= c <= MAX_SAFE_INTEGER.

(** [v] is a [Post] of the store whose id is not [id]. *)
Definition other_post (ps : list Post) (id : string) (v : value) : Prop :=
  exists a p, v = ref a /\ ps !! a = Some p /\ PostHashHex p <> id.

(** The last child is not a post with id [id]: it is [undefined], or a
    post of the store with another id, or there is no child at all. *)
Definition last_differs (ps : list Post) (id : string) (ch : list value)
  : Prop :=
  match last_child ch with
  | Some (ref l) => exists L, ps !! l = Some L /\ PostHashHex L <> id
  | _ => True
  end.

(** The state in which the [Post] objects [new_posts] have been
    allocated and the [Thread] object [t] holds [T']; the map, the cache
    and every other object are as in [s]. *)
Definition updated (s : State) (new_posts : list Post) (t : addr)
  (T' : Thread) : State :=
  mkState (posts s ++ new_posts) (<[t := T']> (threadObjs s)) (arrays s)
          (threadMap s) (threadArrayCache s).

(** The store after [commentToHide.IsHidden = true]: the object at [c]
    is written in place. *)
Definition hidden (s : State) (c : addr) (C : Post) : State :=
  with_posts (fun ps => <[c := with_IsHidden true C]> ps) s.

(** ** The invariant of the manager *)

(** The id under which the thread object [t] should be registered:
    [thread.parent.PostHashHex]. *)
Definition key_of (s : State) (t : addr) : option string :=
  match threadObjs s !! t with
  | Some T =>
      match posts s !! parent T with
      | Some p => Some (PostHashHex p)
      | None => None
      end
  | None => None
  end.

(** Every entry of the map has the key [thread.parent.PostHashHex]. *)
Definition key_coherent (s : State) : Prop :=
  forall k t, In (k, t) (threadMap s) -> key_of s t = Some k.

(** A cached array lists the values of the map. *)
Definition cache_coherent (s : State) : Prop :=
  forall a, threadArrayCache s = Some a ->
            arrays s !! a = Some (JsMap.values (threadMap s)).

(** The invariant: the keys of the map are distinct, each entry is
    registered under the id of its parent, and a cached array is up to
    date. *)
Record wf (s : State) : Prop := mk_wf {
  wf_keys : List.NoDup (JsMap.keys (threadMap s));
  wf_coherent : key_coherent s;
  wf_cache : cache_coherent s
}.

(** What [addReplyToComment] and [hideComment] may change: objects are
    allocated or rewritten, but every thread keeps its key, and the map,
    the arrays and the cache field are not touched. *)
Record frame (s s' : State) : Prop := mk_frame {
  frame_keys : forall t k, key_of s t = Some k -> key_of s' t = Some k;
  frame_map : threadMap s' = threadMap s;
  frame_arrays : arrays s' = arrays s;
  frame_cache : threadArrayCache s' = threadArrayCache s
}.

(** Whatever state [m] ends in, returning or throwing, is related by [R]
    to the one it started from. *)
Definition steps {A : Type} (R : State -> State -> Prop) (m : M A) : Prop :=
  forall s,
    match m s with
    | Ret _ s' | Throw s' => R s s'
    | OutOfFuel | Dangling => True
    end.

(** [m] keeps the invariant, whether it returns or throws. *)
Definition preserves {A : Type} (m : M A) : Prop :=
  forall s, wf s ->
    match m s with
    | Ret _ s' | Throw s' => wf s'
    | OutOfFuel | Dangling => True
    end.

(** The callback of the loop of [prependComment]:
    [(thread) => this.threadMap.set(thread.parent.PostHashHex, thread)]. *)
Definition reregister (thread : addr) : M unit :=
  T <- get_thread thread ;;
  p <- get_post (parent T) ;;
  map_set (PostHashHex p) thread.

(** The invariant, with no cached array. *)
Definition uncached (s : State) : Prop :=
  wf s /\ threadArrayCache s = None.

(** ** Reachable states *)

(** The public members of [ThreadManager]. *)
Inductive Call : Type :=
| Call_threadCount
| Call_threads
| Call_getThread (parentPostHashHex : string)
| Call_removeThread (parentPostHashHex : string)
| Call_addThreads (fuel : nat) (comments : option (list addr))
| Call_prependComment (fuel : nat) (comment : addr)
| Call_appendComment (fuel : nat) (comment : addr)
| Call_addReplyToComment (threadPostHashHex : string)
    (replyingToComment reply : addr)
| Call_hideComment (commentToHide parentComment : addr)
    (threadPostHashHex : string)
| Call_reset.

Definition run (c : Call) : M unit :=
  match c with
  | Call_threadCount => _ <- threadCount ;; ret tt
  | Call_threads => _ <- threads ;; ret tt
  | Call_getThread k => _ <- getThread k ;; ret tt
  | Call_removeThread k => removeThread k
  | Call_addThreads fuel comments => addThreads fuel comments
  | Call_prependComment fuel comment => prependComment fuel comment
  | Call_appendComment fuel comment => appendComment fuel comment
  | Call_addReplyToComment k r reply => addReplyToComment k r reply
  | Call_hideComment c p k => hideComment c p k
  | Call_reset => reset
  end.

(** The state a call leaves behind, whether it returned or threw. *)
Definition final {A : Type} (r : Res A) : option State :=
  match r with
  | Ret _ s | Throw s => Some s
  | OutOfFuel | Dangling => None
  end.

(** The states of a manager: the one its constructor returns, then those
    after any call of a public member, and those in which its caller has
    created one more [Post] object. *)
Inductive reachable : State -> Prop :=
| reach_new (fuel : nat) (rootPost : addr) (s0 s : State) :
    constructor fuel rootPost s0 = Ret tt s -> reachable s
| reach_call (c : Call) (s s' : State) :
    reachable s -> final (run c s) = Some s' -> reachable s'
| reach_alloc (p : Post) (s : State) :
    reachable s -> reachable (with_posts (fun ps => ps ++ [p]) s).

(** ** The array cache *)

(** The next read of [threads] builds a new array, one that was not in
    the store, holding the values of the map as it is now. *)
Definition next_read_rebuilds (s : State) : Prop :=
  exists s',
    threads s = Ret (length (arrays s)) s'
    /\ arrays s !! length (arrays s) = None
    /\ arrays s' !! length (arrays s) = Some (JsMap.values (threadMap s)).

(** [op] returns with the cache invalidated. *)
Definition invalidates (op : M unit) (s : State) : Prop :=
  exists s', op s = Ret tt s' /\ threadArrayCache s' = None
             /\ next_read_rebuilds s'.

(** ** Example stores *)

(** A store with the three posts of a chain, the last with an empty
    [Comments] array, and a reply [R]. *)
Module Chain.
Definition P : Post := mkPost "P" (Some [1%nat]) 1 false.
Definition A : Post := mkPost "A" (Some [2%nat]) 1 false.
Definition B : Post := mkPost "B" (Some []) 0 false.
Definition R : Post := mkPost "R" None 0 false.
Definition store : State := mkState [P; A; B; R] [] [] [] None.
End Chain.

(** A root post with one reply [T], whose chain is [X] then [Y]; a new
    reply [R]; a post [Q] that is in no chain; a second object [X_stale]
    with the id of [X] and another count; and a post [N] to prepend. *)
Module Ex.
Definition Root : Post := mkPost "root" (Some [1%nat]) 1 false.
Definition T : Post := mkPost "T" (Some [2%nat]) 1 false.
Definition X : Post := mkPost "X" (Some [3%nat]) 5 false.
Definition Y : Post := mkPost "Y" None 0 false.
Definition R : Post := mkPost "R" None 0 false.
Definition Q : Post := mkPost "Q" None 0 false.
Definition X_stale : Post := mkPost "X" (Some [3%nat]) 0 false.
Definition N : Post := mkPost "N" (Some [5%nat]) 1 false.
Definition heap : list Post := [Root; T; X; Y; R; Q; X_stale; N].

(** Before [new ThreadManager(Root)]. *)
Definition s0 : State := mkState heap [] [] [] None.

(** After it: one thread, registered under ["T"]. *)
Definition thread_T : Thread := mkThread 1%nat [ref 2%nat; ref 3%nat].
Definition s : State := mkState heap [thread_T] [] [("T", 0%nat)] None.

(** After a first read of [threads]. *)
Definition s_read : State :=
  mkState heap [thread_T] [[0%nat]] [("T", 0%nat)] (Some 0%nat).

(** After a reply [R] to [Y], the last child, made after that read. *)
Definition s_replied : State :=
  mkState (heap ++ [with_CommentCount 1 Y; T])
    [mkThread 9%nat [ref 2%nat; ref 8%nat; ref 4%nat]]
    [[0%nat]] [("T", 0%nat)] (Some 0%nat).

(** A manager whose only thread has no children. *)
Definition bare : State :=
  mkState heap [mkThread 1%nat []] [] [("T", 0%nat)] None.
End Ex.

(** ** Vocabulary of the further statements *)

(** A reply of the root as the constructor sees it: the reference, the
    object it denotes and the chain its flattening yields. *)
Definition Reply : Type := addr * Post * list value.
Definition reply_addr (r : Reply) : addr := fst (fst r).
Definition reply_post (r : Reply) : Post := snd (fst r).
Definition reply_chain (r : Reply) : list value := snd r.
Definition reply_id (r : Reply) : string := PostHashHex (reply_post r).
Definition reply_thread (r : Reply) : Thread :=
  mkThread (reply_addr r) (reply_chain r).

(** [r] describes a post of the store and its flattening. *)
Definition reply_ok (fuel : nat) (ps : list Post) (r : Reply) : Prop :=
  ps !! reply_addr r = Some (reply_post r)
  /\ flat_children fuel ps (reply_addr r) = Some (reply_chain r).

(** No [Post] object of [s] is written: each is in [s'] with the fields
    it had. *)
Definition posts_kept (s s' : State) : Prop :=
  forall a p, posts s !! a = Some p -> posts s' !! a = Some p.

(** Of the [Thread] objects only [t] may have changed, none was created,
    and no [Post] object was written. *)
Record confined (t : addr) (s s' : State) : Prop := mk_confined {
  confined_posts : posts_kept s s';
  confined_threads :
    forall t', t' <> t -> threadObjs s' !! t' = threadObjs s !! t';
  confined_count : length (threadObjs s') = length (threadObjs s)
}.

(** ** Further example stores *)

(** A post [P] whose reply [A] has two replies of its own, [B] and [C],
    both without replies; [built] is the manager of root [A]. *)
Module Fan.
Definition P : Post := mkPost "P" (Some [1%nat]) 1 false.
Definition A : Post := mkPost "A" (Some [2%nat; 3%nat]) 2 false.
Definition B : Post := mkPost "B" None 0 false.
Definition C : Post := mkPost "C" None 0 false.
Definition store : State := mkState [P; A; B; C] [] [] [] None.
Definition built : State :=
  mkState [P; A; B; C] [mkThread 2%nat []; mkThread 3%nat []] []
    [("B", 0%nat); ("C", 1%nat)] None.
End Fan.

(** A post [A] that is its own first reply, below [P]. *)
Module Loop.
Definition P : Post := mkPost "P" (Some [1%nat]) 1 false.
Definition A : Post := mkPost "A" (Some [1%nat]) 1 false.
Definition store : State := mkState [P; A] [] [] [] None.
End Loop.

(** A callback that records each value it is given, as a one-element or
    empty array appended to the store of arrays. *)
Definition record_visit (v : value) : M unit :=
  modify (with_arrays (fun a =>
    a ++ [match v with ref x => [x] | undefined => [] end])).

(** The manager [new ThreadManager(Chain.P)] builds: the thread of [A],
    whose chain ends with the [undefined] the walk pushed after [B]. *)
Module Trail.
Definition built : State :=
  mkState [Chain.P; Chain.A; Chain.B; Chain.R]
    [mkThread 1%nat [ref 2%nat; undefined]] [] [("A", 0%nat)] None.
End Trail.

(** A root whose reply [T] has the replies [A1], [A2] and [A3], the first
    with an empty [Comments] array; a post [C] to hide and a reply [R].
    [built] is the manager [new ThreadManager(Root)] builds: the chain of
    [T] has an [undefined] after [A1]. *)
Module Gap.
Definition Root : Post := mkPost "root" (Some [1%nat]) 1 false.
Definition T : Post :=
  mkPost "T" (Some [2%nat; 3%nat; 4%nat]) 3 false.
Definition A1 : Post := mkPost "A1" (Some []) 0 false.
Definition A2 : Post := mkPost "A2" None 1 false.
Definition A3 : Post := mkPost "A3" None 0 false.
Definition C : Post := mkPost "C" None 0 false.
Definition R : Post := mkPost "R" None 0 false.
Definition heap : list Post := [Root; T; A1; A2; A3; C; R].
Definition store : State := mkState heap [] [] [] None.
Definition built : State :=
  mkState heap
    [mkThread 1%nat [ref 2%nat; undefined; ref 3%nat; ref 4%nat]] []
    [("T", 0%nat)] None.
End Gap.

(** The example manager [Ex.s] after a reply [R] to [Y], its last child,
    and after hiding [Y] below the thread root [T]. *)
Module After.
Definition replied : State :=
  updated Ex.s [with_CommentCount 1 Ex.Y; Ex.T] 0%nat
    (mkThread 9%nat [ref 2%nat; ref 8%nat; ref 4%nat]).
Definition hid : State :=
  updated (hidden Ex.s 3%nat Ex.Y) [with_CommentCount 0 Ex.T] 0%nat
    (mkThread 8%nat [ref 2%nat; ref 3%nat]).
End After.

(** ** Basic facts about the store *)

Lemma state_eta (s : State) :
  s = mkState (posts s) (threadObjs s) (arrays s) (threadMap s)
        (threadArrayCache s).
Proof. destruct s; reflexivity. Qed.

Lemma lookup_snoc_new {A : Type} (l : list A) (x : A) :
  (l ++ [x]) !! length l = Some x.
Proof. apply list_lookup_middle; reflexivity. Qed.

Lemma lookup_snoc_old {A : Type} (l : list A) (x y : A) (i : nat) :
  l !! i = Some y -> (l ++ [x]) !! i = Some y.
Proof. intros H. apply lookup_app_l_Some; exact H. Qed.

Lemma lookup_insert_same {A : Type} (l : list A) (x y : A) (i : nat) :
  l !! i = Some y -> <[i := x]> l !! i = Some x.
Proof.
  intros H. apply list_lookup_insert_eq. eapply lookup_lt_Some; exact H.
Qed.

Lemma insert_insert_same {A : Type} (l : list A) (x y : A) (i : nat) :
  <[i := x]> (<[i := y]> l) = <[i := x]> l.
Proof. apply list_insert_insert_eq. Qed.

Lemma insert_snoc {A : Type} (l : list A) (x y : A) :
  <[length l := x]> (l ++ [y]) = l ++ [x].
Proof. induction l as [|z l IH]; simpl; [reflexivity|]. now rewrite IH. Qed.

Lemma insert_middle {A : Type} (pre post : list A) (x y : A) :
  <[length pre := y]> (pre ++ x :: post) = pre ++ y :: post.
Proof.
  induction pre as [|z pre IH]; simpl; [reflexivity|]. now rewrite IH.
Qed.

(** ** Equations of the primitive actions *)

Lemma bind_Ret {A B : Type} (m : M A) (k : A -> M B) (s s' : State)
  (a : A) :
  m s = Ret a s' -> bind m k s = k a s'.
Proof. intros H. unfold bind. rewrite H. reflexivity. Qed.

Lemma bind_Throw {A B : Type} (m : M A) (k : A -> M B) (s s' : State) :
  m s = Throw s' -> bind m k s = Throw s'.
Proof. intros H. unfold bind. rewrite H. reflexivity. Qed.

Lemma get_post_Some (a : addr) (p : Post) (s : State) :
  posts s !! a = Some p -> get_post a s = Ret p s.
Proof. intros H. unfold get_post. rewrite H. reflexivity. Qed.

Lemma get_thread_Some (t : addr) (T : Thread) (s : State) :
  threadObjs s !! t = Some T -> get_thread t s = Ret T s.
Proof. intros H. unfold get_thread. rewrite H. reflexivity. Qed.

Lemma get_array_Some (a : addr) (l : list addr) (s : State) :
  arrays s !! a = Some l -> get_array a s = Ret l s.
Proof. intros H. unfold get_array. rewrite H. reflexivity. Qed.

Lemma bind_Dangling {A B : Type} (m : M A) (k : A -> M B) (s : State) :
  m s = Dangling -> bind m k s = Dangling.
Proof. intros H. unfold bind. rewrite H. reflexivity. Qed.

Lemma get_post_None (a : addr) (s : State) :
  posts s !! a = None -> get_post a s = Dangling.
Proof. intros H. unfold get_post. rewrite H. reflexivity. Qed.

Lemma get_array_None (a : addr) (s : State) :
  arrays s !! a = None -> get_array a s = Dangling.
Proof. intros H. unfold get_array. rewrite H. reflexivity. Qed.

Lemma gets_eq {A} (f : State -> A) s : gets f s = Ret (f s) s.
Proof. reflexivity. Qed.

Lemma modify_eq (f : State -> State) (s : State) :
  modify f s = Ret tt (f s).
Proof. reflexivity. Qed.

Lemma map_set_eq (k : string) (t : addr) (s : State) :
  map_set k t s = Ret tt (with_threadMap (JsMap.set k t) s).
Proof. reflexivity. Qed.

Lemma set_parent_Some (t : addr) (T : Thread) (v : addr) (s : State) :
  threadObjs s !! t = Some T ->
  set_parent t v s
  = Ret tt (with_threadObjs
              (fun ts => <[t := mkThread v (children T)]> ts) s).
Proof.
  intros H. unfold set_parent.
  rewrite (bind_Ret _ _ _ _ _ (get_thread_Some _ _ _ H)). reflexivity.
Qed.

Lemma set_children_Some (t : addr) (T : Thread) (v : list value)
  (s : State) :
  threadObjs s !! t = Some T ->
  set_children t v s
  = Ret tt (with_threadObjs
              (fun ts => <[t := mkThread (parent T) v]> ts) s).
Proof.
  intros H. unfold set_children.
  rewrite (bind_Ret _ _ _ _ _ (get_thread_Some _ _ _ H)). reflexivity.
Qed.

Lemma push_child_Some (t : addr) (T : Thread) (v : value) (s : State) :
  threadObjs s !! t = Some T ->
  push_child t v s
  = Ret tt (with_threadObjs
              (fun ts => <[t := mkThread (parent T) (children T ++ [v])]> ts)
              s).
Proof.
  intros H. unfold push_child.
  rewrite (bind_Ret _ _ _ _ _ (get_thread_Some _ _ _ H)).
  apply set_children_Some; exact H.
Qed.

Lemma bump_parent_Some (t : addr) (T : Thread) (Par : Post) (d : Z)
  (s : State) :
  threadObjs s !! t = Some T ->
  posts s !! parent T = Some Par ->
  bump_parent t d s
  = Ret tt (updated s [with_CommentCount (CommentCount Par + d) Par] t
              (mkThread (length (posts s)) (children T))).
Proof.
  intros Ht Hp. unfold bump_parent.
  rewrite (bind_Ret _ _ _ _ _ (get_thread_Some _ _ _ Ht)).
  rewrite (bind_Ret _ _ _ _ _ (get_post_Some _ _ _ Hp)).
  unfold bind at 1. unfold new_post.
  erewrite set_parent_Some by (simpl; exact Ht). reflexivity.
Qed.

Lemma copy_parent_Some (t : addr) (T : Thread) (Par : Post) (s : State) :
  threadObjs s !! t = Some T ->
  posts s !! parent T = Some Par ->
  copy_parent t s
  = Ret tt (updated s [Par] t (mkThread (length (posts s)) (children T))).
Proof.
  intros Ht Hp. unfold copy_parent.
  rewrite (bind_Ret _ _ _ _ _ (get_thread_Some _ _ _ Ht)).
  rewrite (bind_Ret _ _ _ _ _ (get_post_Some _ _ _ Hp)).
  unfold bind at 1. unfold new_post.
  erewrite set_parent_Some by (simpl; exact Ht). reflexivity.
Qed.

Lemma opt_PostHashHex_ref (a : addr) (p : Post) (s : State) :
  posts s !! a = Some p ->
  opt_PostHashHex (Some (ref a)) s = Ret (Some (PostHashHex p)) s.
Proof.
  intros H. unfold opt_PostHashHex.
  rewrite (bind_Ret _ _ _ _ _ (get_post_Some _ _ _ H)). reflexivity.
Qed.

Lemma put_post_hidden (c : addr) (C : Post) (s : State) :
  put_post c (with_IsHidden true C) s = Ret tt (hidden s c C).
Proof. reflexivity. Qed.

Lemma bust_cache_eq (s : State) : bust_cache s = Ret tt (with_cache None s).
Proof. destruct s as [ps ts ars m [a|]]; reflexivity. Qed.

Lemma threads_cached (s : State) (a : addr) :
  threadArrayCache s = Some a -> threads s = Ret a s.
Proof.
  intros H. unfold threads.
  rewrite (bind_Ret _ _ _ _ _ (gets_eq _ _)), H. reflexivity.
Qed.

Lemma threads_rebuilt (s : State) :
  threadArrayCache s = None ->
  threads s
  = Ret (length (arrays s))
        (with_cache (Some (length (arrays s)))
           (with_arrays (fun a => a ++ [JsMap.values (threadMap s)]) s)).
Proof.
  intros H. unfold threads.
  rewrite (bind_Ret _ _ _ _ _ (gets_eq _ _)), H. reflexivity.
Qed.

(** ** Facts about the array primitives *)
Module JsArrayFacts.
Import JsArray.

Lemma slice_prefix {A : Type} (pre post : list A) :
  slice (pre ++ post) 0 (Z.of_nat (length pre)) = pre.
Proof.
  unfold slice, clamp. rewrite length_app.
  replace (0 <? 0) with false by reflexivity.
  destruct (Z.ltb_spec (Z.of_nat (length pre)) 0) as [E|E]; [lia|].
  rewrite Z.min_l by lia. rewrite Z.min_l by lia.
  rewrite Z.sub_0_r, Nat2Z.id. change (Z.to_nat 0) with 0%nat.
  rewrite drop_0, take_app_length. reflexivity.
Qed.

Lemma slice_suffix {A : Type} (pre post : list A) :
  slice (pre ++ post) (Z.of_nat (length pre))
    (Z.of_nat (length (pre ++ post))) = post.
Proof.
  unfold slice, clamp. rewrite length_app.
  destruct (Z.ltb_spec (Z.of_nat (length pre)) 0) as [E|E]; [lia|].
  destruct (Z.ltb_spec (Z.of_nat (length pre + length post)) 0)
    as [E'|E']; [lia|].
  rewrite Z.min_l by lia. rewrite Z.min_l by lia.
  rewrite Nat2Z.id, drop_app_length.
  apply firstn_all2. lia.
Qed.

Lemma slice_all {A : Type} (l : list A) :
  slice l 0 (Z.of_nat (length l)) = l.
Proof.
  pose proof (slice_prefix l []) as H.
  rewrite app_nil_r in H. exact H.
Qed.

(** [slice(0, -1)] drops the last element. *)
Lemma slice_drop_last {A : Type} (pre : list A) (x : A) :
  slice (pre ++ [x]) 0 (-1) = pre.
Proof.
  unfold slice, clamp. rewrite length_app. simpl length.
  replace (0 <? 0) with false by reflexivity.
  replace (-1 <? 0) with true by reflexivity.
  rewrite Z.min_l by lia. rewrite Z.max_l by lia.
  replace (Z.to_nat (Z.of_nat (length pre + 1) + -1 - 0))
    with (length pre) by lia.
  change (Z.to_nat 0) with 0%nat.
  rewrite drop_0, take_app_length. reflexivity.
Qed.

Lemma at_index_middle (pre post : list value) (v : value) :
  at_index (pre ++ v :: post) (Z.of_nat (length pre)) = v.
Proof.
  unfold at_index.
  destruct (Z.ltb_spec (Z.of_nat (length pre)) 0) as [E|E]; [lia|].
  rewrite Nat2Z.id, list_lookup_middle by reflexivity. reflexivity.
Qed.

Lemma at_index_neg (l : list value) : at_index l (-1) = undefined.
Proof. reflexivity. Qed.
End JsArrayFacts.

Lemma slice_removelast {A : Type} (l : list A) :
  JsArray.slice l 0 (-1) = removelast l.
Proof.
  destruct l as [|a l0] using rev_ind; [reflexivity|].
  rewrite removelast_last. apply JsArrayFacts.slice_drop_last.
Qed.

Lemma last_child_snoc (pre : list value) (v : value) :
  last_child (pre ++ [v]) = Some v.
Proof.
  unfold last_child.
  destruct (pre ++ [v]) as [|w l] eqn:E.
  - destruct pre; discriminate.
  - rewrite <- E. f_equal. rewrite length_app. simpl length.
    replace (Z.of_nat (length pre + 1) - 1) with (Z.of_nat (length pre))
      by lia.
    apply JsArrayFacts.at_index_middle.
Qed.

(** ** Facts about the ordered map *)
Module JsMapFacts.
Import JsMap.

Lemma get_None_keys (k : string) (m : t) :
  get k m = None <-> ~ In k (keys m).
Proof.
  induction m as [|[k' v] m IH]; simpl.
  - tauto.
  - destruct (String.eqb_spec k' k) as [->|Hne].
    + split; [discriminate|]. intros H. exfalso. apply H. now left.
    + rewrite IH. split.
      * intros H [E|E]; [congruence|tauto].
      * intros H E. apply H. now right.
Qed.

(** [set] on a key that is absent appends the entry. *)
Lemma set_absent (k : string) (v : addr) (m : t) :
  ~ In k (keys m) -> set k v m = m ++ [(k, v)].
Proof.
  induction m as [|[k' v'] m IH]; simpl; intros H; [reflexivity|].
  destruct (String.eqb_spec k' k) as [->|Hne].
  - exfalso. apply H. now left.
  - rewrite IH; [reflexivity|]. intros E. apply H. now right.
Qed.

Lemma keys_set (k : string) (v : addr) (m : t) :
  keys (set k v m)
  = match get k m with Some _ => keys m | None => keys m ++ [k] end.
Proof.
  induction m as [|[k' v'] m IH]; simpl; [reflexivity|].
  destruct (String.eqb_spec k' k) as [->|Hne]; simpl; [reflexivity|].
  rewrite IH. destruct (get k m); reflexivity.
Qed.

Lemma NoDup_set (k : string) (v : addr) (m : t) :
  List.NoDup (keys m) -> List.NoDup (keys (set k v m)).
Proof.
  intros H. rewrite keys_set.
  destruct (get k m) eqn:E; [exact H|].
  apply get_None_keys in E.
  apply NoDup_ListNoDup. apply NoDup_ListNoDup in H.
  apply NoDup_app. split; [exact H|]. split.
  - intros x Hx Hx'. apply list_elem_of_In in Hx.
    apply list_elem_of_In in Hx'. destruct Hx' as [->|[]]. contradiction.
  - apply NoDup_singleton.
Qed.

Lemma In_set (k : string) (v : addr) (m : t) (e : string * addr) :
  In e (set k v m) -> e = (k, v) \/ In e m.
Proof.
  induction m as [|[k' v'] m IH]; simpl.
  - intros [<-|[]]. now left.
  - destruct (String.eqb_spec k' k) as [->|Hne]; simpl.
    + intros [<-|H]; [now left|right; now right].
    + intros [<-|H]; [right; now left|].
      destruct (IH H) as [->|H']; [now left|right; now right].
Qed.

Lemma In_delete (k : string) (m : t) (e : string * addr) :
  In e (delete k m) -> In e m.
Proof.
  induction m as [|[k' v'] m IH]; simpl; [tauto|].
  destruct (String.eqb_spec k' k) as [->|Hne]; simpl.
  - intros H. now right.
  - intros [<-|H]; [now left|right; now apply IH].
Qed.

Lemma NoDup_delete (k : string) (m : t) :
  List.NoDup (keys m) -> List.NoDup (keys (delete k m)).
Proof.
  induction m as [|[k' v'] m IH]; simpl; intros H; [exact H|].
  inversion H as [|? ? Hnotin Hm]; subst.
  destruct (String.eqb_spec k' k) as [->|Hne]; simpl; [exact Hm|].
  constructor; [|now apply IH].
  intros Hin. apply Hnotin. unfold keys in *.
  apply in_map_iff in Hin. destruct Hin as (e & <- & He).
  apply in_map. eapply In_delete; exact He.
Qed.
End JsMapFacts.

(** ** The walk pushes exactly the chain *)

Lemma walk_push (fuel : nat) :
  forall (v : value) (t : addr) (s : State) (T : Thread),
    threadObjs s !! t = Some T ->
    match walkSubcomments fuel v (push_child t) s with
    | Ret _ s' =>
        exists ch,
          chain fuel (posts s) v = Some ch /\
          s' = with_threadObjs
                 (fun ts => <[t := mkThread (parent T) (children T ++ ch)]> ts)
                 s
    | Throw _ => False
    | OutOfFuel | Dangling => chain fuel (posts s) v = None
    end.
Proof.
  induction fuel as [|fuel IH]; intros v t s T Ht; simpl.
  - reflexivity.
  - rewrite (bind_Ret _ _ _ _ _ (push_child_Some _ _ v _ Ht)).
    set (s1 := with_threadObjs _ s).
    assert (Ht1 : threadObjs s1 !! t
                  = Some (mkThread (parent T) (children T ++ [v]))).
    { subst s1. simpl. eapply lookup_insert_same; exact Ht. }
    destruct v as [|a].
    + simpl. exists [undefined]. split; reflexivity.
    + unfold bind, get_post. change (posts s1) with (posts s).
      destruct (posts s !! a) as [p|] eqn:Hp; [|reflexivity].
      destruct (Comments p) as [arr|] eqn:Hc.
      * specialize (IH (JsArray.first arr) t s1 _ Ht1).
        change (posts s1) with (posts s) in IH.
        destruct (walkSubcomments fuel (JsArray.first arr) (push_child t) s1)
          as [[] s2| | |]; try assumption.
        -- destruct IH as (ch & Hch & ->). rewrite Hch.
           exists (ref a :: ch). split; [reflexivity|].
           subst s1. unfold with_threadObjs. simpl.
           rewrite insert_insert_same, <- app_assoc. reflexivity.
        -- rewrite IH. reflexivity.
        -- rewrite IH. reflexivity.
      * simpl. exists [ref a]. split; reflexivity.
Qed.

Lemma forEach_walk (fuel : nat) (t : addr) :
  forall (arr : list addr) (s : State) (T : Thread),
    threadObjs s !! t = Some T ->
    match forEach arr
            (fun c => walkSubcomments fuel (ref c) (push_child t)) s with
    | Ret _ s' =>
        exists ch,
          chains fuel (posts s) arr = Some ch /\
          s' = with_threadObjs
                 (fun ts => <[t := mkThread (parent T) (children T ++ ch)]> ts)
                 s
    | Throw _ => False
    | OutOfFuel | Dangling => chains fuel (posts s) arr = None
    end.
Proof.
  induction arr as [|c arr IH]; intros s T Ht.
  - simpl. exists []. split; [reflexivity|].
    rewrite app_nil_r. destruct T as [par ch]. simpl.
    unfold with_threadObjs. rewrite (list_insert_id _ _ _ Ht).
    apply state_eta.
  - cbn [forEach chains]. unfold bind.
    pose proof (walk_push fuel (ref c) t s T Ht) as Hw.
    destruct (walkSubcomments fuel (ref c) (push_child t) s)
      as [[] s1| | |]; try (rewrite Hw; reflexivity); try contradiction.
    destruct Hw as (ch & Hch & ->). rewrite Hch.
    set (s1 := with_threadObjs _ s).
    assert (Ht1 : threadObjs s1 !! t
                  = Some (mkThread (parent T) (children T ++ ch))).
    { subst s1. simpl. eapply lookup_insert_same; exact Ht. }
    specialize (IH s1 _ Ht1). change (posts s1) with (posts s) in IH.
    destruct (forEach arr _ s1) as [[] s2| | |];
      try (rewrite IH; reflexivity); try contradiction.
    destruct IH as (rest & Hrest & ->). rewrite Hrest.
    exists (ch ++ rest). split; [reflexivity|].
    subst s1. unfold with_threadObjs. simpl.
    rewrite insert_insert_same, <- app_assoc. reflexivity.
Qed.

(** [flattenThread] allocates one [Thread] object, whose [parent] is the
    argument and whose [children] are the chains of the argument's
    comments; it touches nothing else and never throws. *)
Lemma flattenThread_spec (fuel : nat) (a : addr) (s : State) :
  match flattenThread fuel a s with
  | Ret t s' =>
      exists ch,
        flat_children fuel (posts s) a = Some ch /\
        t = length (threadObjs s) /\
        s' = with_threadObjs (fun ts => ts ++ [mkThread a ch]) s
  | Throw _ => False
  | OutOfFuel | Dangling => flat_children fuel (posts s) a = None
  end.
Proof.
  unfold flattenThread, flat_children.
  unfold bind at 1. unfold new_thread.
  set (s1 := with_threadObjs _ s).
  unfold bind at 1. unfold get_post. change (posts s1) with (posts s).
  destruct (posts s !! a) as [p|] eqn:Hp; [|reflexivity].
  unfold bind at 1.
  destruct (Comments p) as [arr|].
  - assert (Ht1 : threadObjs s1 !! length (threadObjs s)
                  = Some (mkThread a [])).
    { subst s1. simpl. apply lookup_snoc_new. }
    pose proof (forEach_walk fuel _ arr s1 _ Ht1) as Hw.
    change (posts s1) with (posts s) in Hw.
    destruct (forEach arr _ s1) as [[] s2| | |]; try assumption.
    destruct Hw as (ch & Hch & ->). exists ch.
    split; [exact Hch|]. split; [reflexivity|].
    subst s1. unfold with_threadObjs, ret. simpl.
    rewrite insert_snoc. reflexivity.
  - exists []. split; [reflexivity|]. split; reflexivity.
Qed.

Lemma flattenThread_Some (fuel : nat) (a : addr) (s : State)
  (ch : list value) :
  flat_children fuel (posts s) a = Some ch ->
  flattenThread fuel a s
  = Ret (length (threadObjs s))
        (with_threadObjs (fun ts => ts ++ [mkThread a ch]) s).
Proof.
  intros H. pose proof (flattenThread_spec fuel a s) as Hs.
  destruct (flattenThread fuel a s) as [t s'| | |].
  - destruct Hs as (ch' & Hch & -> & ->).
    rewrite H in Hch. injection Hch as <-. reflexivity.
  - contradiction.
  - congruence.
  - congruence.
Qed.

(** ** Termination of the flattener on finite chains *)

Lemma chain_terminates (ps : list Post) (v : value) :
  walk_ends ps v ->
  exists fuel0 ch, forall fuel, (fuel0 <= fuel)%nat ->
                               chain fuel ps v = Some ch.
Proof.
  induction 1 as [|a p Ha Hc|a p arr Ha Hc _ (n & ch & IH)].
  - exists 1%nat, [undefined]. intros [|fuel] Hle; [lia|reflexivity].
  - exists 1%nat, [ref a]. intros [|fuel] Hle; [lia|].
    simpl. rewrite Ha, Hc. reflexivity.
  - exists (S n), (ref a :: ch). intros [|fuel] Hle; [lia|].
    simpl. rewrite Ha, Hc, IH by lia. reflexivity.
Qed.

Lemma chains_terminates (ps : list Post) (arr : list addr) :
  Forall (fun a => walk_ends ps (ref a)) arr ->
  exists fuel0 ch, forall fuel, (fuel0 <= fuel)%nat ->
                               chains fuel ps arr = Some ch.
Proof.
  induction 1 as [|a arr Ha _ (n & rest & IH)].
  - exists 0%nat, []. reflexivity.
  - destruct (chain_terminates ps (ref a) Ha) as (m & ch & Hch).
    exists (Nat.max m n), (ch ++ rest). intros fuel Hle.
    cbn [chains]. rewrite Hch by lia. rewrite IH by lia. reflexivity.
Qed.

Lemma flat_children_terminates (ps : list Post) (a : addr) :
  flattenable ps a ->
  exists fuel0 ch, forall fuel, (fuel0 <= fuel)%nat ->
                               flat_children fuel ps a = Some ch.
Proof.
  intros (p & Hp & Hall). unfold flat_children. rewrite Hp.
  destruct (Comments p) as [arr|].
  - apply chains_terminates. apply Hall. reflexivity.
  - exists 0%nat, []. reflexivity.
Qed.

(** ** The flattener on a chain of three posts *)

Lemma le_S_exists (n m : nat) : (S n <= m)%nat -> exists m', m = S m'.
Proof. destruct m as [|m']; [lia|]. intros _. exists m'. reflexivity. Qed.

(** When the last post of the chain has [Comments = null] the walk stops
    on it: the children are exactly the two posts. *)
Lemma flattenThread_chain_null (fuel : nat) (s : State) (p a b : addr)
  (P A B : Post) :
  posts s !! p = Some P -> Comments P = Some [a] ->
  posts s !! a = Some A -> Comments A = Some [b] ->
  posts s !! b = Some B -> Comments B = None ->
  (2 <= fuel)%nat ->
  flattenThread fuel p s
  = Ret (length (threadObjs s))
        (with_threadObjs (fun ts => ts ++ [mkThread p [ref a; ref b]]) s).
Proof.
  intros Hp HP Ha HA Hb HB Hfuel.
  apply flattenThread_Some. unfold flat_children. rewrite Hp, HP.
  destruct (le_S_exists _ _ Hfuel) as [f1 ->].
  destruct (le_S_exists 0 f1 ltac:(lia)) as [f2 ->].
  simpl. rewrite Ha, HA. simpl. rewrite Hb, HB. reflexivity.
Qed.

(** C1 (as the code behaves).  For a post [P] with [Comments = [A]],
    [A.Comments = [B]] and [B.Comments = []], [flattenThread(P)] returns a
    thread whose children are [A], [B] and then [undefined]: the walk
    calls its callback on [B.Comments[0]], which is absent, before the
    guard on [subComment?.Comments] stops it.  The children are not
    [[A, B]]. *)
Theorem flattenThread_chain_pushes_undefined (fuel : nat) (s : State)
  (p a b : addr) (P A B : Post) :
  posts s !! p = Some P -> Comments P = Some [a] ->
  posts s !! a = Some A -> Comments A = Some [b] ->
  posts s !! b = Some B -> Comments B = Some [] ->
  (3 <= fuel)%nat ->
  flattenThread fuel p s
  = Ret (length (threadObjs s))
        (with_threadObjs
           (fun ts => ts ++ [mkThread p [ref a; ref b; undefined]]) s).
Proof.
  intros Hp HP Ha HA Hb HB Hfuel.
  apply flattenThread_Some. unfold flat_children. rewrite Hp, HP.
  destruct (le_S_exists _ _ Hfuel) as [f1 ->].
  destruct (le_S_exists 1 f1 ltac:(lia)) as [f2 ->].
  destruct (le_S_exists 0 f2 ltac:(lia)) as [f3 ->].
  simpl. rewrite Ha, HA. simpl. rewrite Hb, HB. reflexivity.
Qed.

Lemma flattenThread_chain_pushes_undefined_witness :
  flattenThread 3 0%nat Chain.store
  = Ret 0%nat
      (mkState [Chain.P; Chain.A; Chain.B; Chain.R]
         [mkThread 0%nat [ref 1%nat; ref 2%nat; undefined]] [] [] None).
Proof.
  apply (flattenThread_chain_pushes_undefined 3 Chain.store 0%nat 1%nat
           2%nat Chain.P Chain.A Chain.B);
    solve [reflexivity | lia].
Defined.

(** The pushed [undefined] is seen by the manager.  The thread of [A]
    built by the constructor has the chain [[B, undefined]]; its last
    element is falsy, so a reply to [A] itself takes the first branch of
    [addReplyToComment], which replaces that chain by [[R]]. *)
Example pushed_undefined_reaches_addReply :
  (constructor 3 0%nat ;; addReplyToComment "A" 1%nat 3%nat) Chain.store
  = Ret tt
      (mkState
         [Chain.P; Chain.A; Chain.B; Chain.R; with_CommentCount 2 Chain.A]
         [mkThread 4%nat [ref 3%nat]] [] [("A", 0%nat)] None)
  /\ constructor 3 0%nat Chain.store
     = Ret tt
         (mkState [Chain.P; Chain.A; Chain.B; Chain.R]
            [mkThread 1%nat [ref 2%nat; undefined]] [] [("A", 0%nat)] None).
Proof. split; reflexivity. Qed.

(** ** Searching a chain *)

Lemma other_post_snoc (ps : list Post) (q : Post) (id : string)
  (v : value) :
  other_post ps id v -> other_post (ps ++ [q]) id v.
Proof.
  intros (a & p & -> & Ha & Hne). exists a, p.
  split; [reflexivity|]. split; [|exact Hne].
  apply lookup_snoc_old; exact Ha.
Qed.

Lemma Forall_other_post_snoc (ps : list Post) (q : Post) (id : string)
  (l : list value) :
  Forall (other_post ps id) l -> Forall (other_post (ps ++ [q]) id) l.
Proof.
  intros H. eapply Forall_impl; [exact H|]. intros v. apply other_post_snoc.
Qed.

(** Discharges [Forall (other_post ps id) l] on a literal chain. *)
Ltac other_posts :=
  repeat (apply List.Forall_cons;
          [eexists _, _; split; [reflexivity|split; [reflexivity|discriminate]]
          |]);
  apply List.Forall_nil.

Lemma findIndex_from_found (pre post : list value) (x : addr) (X : Post)
  (id : string) (s : State) :
  Forall (other_post (posts s) id) pre ->
  posts s !! x = Some X -> PostHashHex X = id ->
  forall i,
    findIndex_from i (pre ++ ref x :: post) id s
    = Ret (i + Z.of_nat (length pre)) s.
Proof.
  intros Hpre Hx HX. induction Hpre as [|v pre Hv Hpre IH]; intros i.
  - simpl. rewrite (bind_Ret _ _ _ _ _ (get_post_Some _ _ _ Hx)).
    rewrite HX, String.eqb_refl. unfold ret. f_equal. lia.
  - destruct Hv as (a & p & -> & Ha & Hne). simpl.
    rewrite (bind_Ret _ _ _ _ _ (get_post_Some _ _ _ Ha)).
    destruct (String.eqb_spec (PostHashHex p) id) as [E|_]; [contradiction|].
    rewrite IH. f_equal. lia.
Qed.

Lemma findIndex_from_absent (l : list value) (id : string) (s : State) :
  Forall (other_post (posts s) id) l ->
  forall i, findIndex_from i l id s = Ret (-1) s.
Proof.
  intros Hl. induction Hl as [|v l Hv Hl IH]; intros i.
  - reflexivity.
  - destruct Hv as (a & p & -> & Ha & Hne). simpl.
    rewrite (bind_Ret _ _ _ _ _ (get_post_Some _ _ _ Ha)).
    destruct (String.eqb_spec (PostHashHex p) id) as [E|_]; [contradiction|].
    apply IH.
Qed.

(** The search throws on an [undefined] slot it reaches before a match. *)
Lemma findIndex_from_undefined (pre post : list value) (id : string)
  (s : State) :
  Forall (other_post (posts s) id) pre ->
  forall i, findIndex_from i (pre ++ undefined :: post) id s = Throw s.
Proof.
  intros Hpre. induction Hpre as [|v pre Hv Hpre IH]; intros i.
  - reflexivity.
  - destruct Hv as (a & p & -> & Ha & Hne). simpl.
    rewrite (bind_Ret _ _ _ _ _ (get_post_Some _ _ _ Ha)).
    destruct (String.eqb_spec (PostHashHex p) id) as [E|_]; [contradiction|].
    apply IH.
Qed.

(** Discharges [safe_integer] on a literal count. *)
Ltac safe_literal := unfold safe_integer, MAX_SAFE_INTEGER; simpl; lia.

(** The managers the constructor builds on the example stores. *)
Example Trail_built : constructor 3 0%nat Chain.store = Ret tt Trail.built.
Proof. reflexivity. Qed.

Example Gap_built : constructor 2 0%nat Gap.store = Ret tt Gap.built.
Proof. reflexivity. Qed.

Lemma last_differs_Forall (ps : list Post) (id : string) (ch : list value) :
  Forall (other_post ps id) ch -> last_differs ps id ch.
Proof.
  intros H. unfold last_differs.
  destruct ch as [|v ch0] using rev_ind; [exact I|].
  rewrite last_child_snoc.
  apply Forall_app in H. destruct H as [_ H].
  apply Forall_inv in H. destruct H as (a & p & -> & Ha & Hne).
  exists p. split; assumption.
Qed.

Lemma hidden_lookup (s : State) (c : addr) (C : Post) (a : addr) (p : Post) :
  posts s !! c = Some C ->
  posts s !! a = Some p ->
  exists p', posts (hidden s c C) !! a = Some p'
             /\ PostHashHex p' = PostHashHex p
             /\ Comments p' = Comments p
             /\ CommentCount p' = CommentCount p.
Proof.
  intros Hc Ha. simpl. destruct (Nat.eq_dec a c) as [->|Hne].
  - exists (with_IsHidden true C).
    rewrite (lookup_insert_same _ _ _ _ Hc).
    rewrite Hc in Ha. injection Ha as <-. repeat split.
  - exists p. rewrite list_lookup_insert_ne by congruence.
    repeat split. exact Ha.
Qed.

Lemma other_post_hidden (s : State) (c : addr) (C : Post) (id : string)
  (v : value) :
  posts s !! c = Some C ->
  other_post (posts s) id v -> other_post (posts (hidden s c C)) id v.
Proof.
  intros Hc (a & p & -> & Ha & Hne).
  destruct (hidden_lookup s c C a p Hc Ha) as (p' & Hp' & Hid & _).
  exists a, p'. split; [reflexivity|]. split; [exact Hp'|]. congruence.
Qed.

(** ** Replies *)

(** Runs [addReplyToComment] up to its first test. *)
Ltac enter_addReply Hget Ht Hrp :=
  unfold addReplyToComment;
  rewrite (bind_Ret _ _ _ _ _ (gets_eq _ _)); rewrite Hget;
  rewrite (bind_Ret _ _ _ _ _ (get_thread_Some _ _ _ Ht));
  rewrite (bind_Ret _ _ _ _ _ (get_post_Some _ _ _ Hrp)).

(** Replying to the thread root, on a chain as [Thread] declares it:
    [P.id] is the thread id.  The parent is replaced by a new object, a
    copy of the old one with [CommentCount + 1].  With no children the
    chain becomes [[R]]; with children whose last element is a post (with
    an id of its own, as ids are unique in the tree) the chain stays as it
    is and [R] is stored nowhere. *)
Theorem addReply_to_thread_root (tid : string) (rp reply t : addr)
  (T : Thread) (RP Par : Post) (s : State) :
  JsMap.get tid (threadMap s) = Some t ->
  threadObjs s !! t = Some T ->
  posts s !! parent T = Some Par ->
  posts s !! rp = Some RP ->
  PostHashHex RP = tid ->
  safe_integer (CommentCount Par) ->
  (children T = [] ->
   addReplyToComment tid rp reply s
   = Ret tt (updated s [with_CommentCount (CommentCount Par + 1) Par] t
               (mkThread (length (posts s)) [ref reply])))
  /\
  (forall pre x X,
     children T = pre ++ [ref x] ->
     posts s !! x = Some X -> PostHashHex X <> tid ->
     addReplyToComment tid rp reply s
     = Ret tt (updated s [with_CommentCount (CommentCount Par + 1) Par] t
                 (mkThread (length (posts s)) (children T)))).
Proof.
  intros Hget Ht Hpar Hrp Hid _. split.
  - intros Hch. unfold addReplyToComment.
    rewrite (bind_Ret _ _ _ _ _ (gets_eq _ _)). rewrite Hget.
    rewrite (bind_Ret _ _ _ _ _ (get_thread_Some _ _ _ Ht)).
    rewrite (bind_Ret _ _ _ _ _ (get_post_Some _ _ _ Hrp)).
    rewrite Hid, String.eqb_refl, Hch. cbn [andb negb truthy last_child].
    rewrite (bind_Ret _ _ _ _ _ (bump_parent_Some _ _ _ _ _ Ht Hpar)).
    erewrite set_children_Some
      by (simpl; eapply lookup_insert_same; exact Ht).
    unfold updated, with_threadObjs. simpl.
    rewrite insert_insert_same. reflexivity.
  - intros pre x X Hch Hx HX. unfold addReplyToComment.
    rewrite (bind_Ret _ _ _ _ _ (gets_eq _ _)). rewrite Hget.
    rewrite (bind_Ret _ _ _ _ _ (get_thread_Some _ _ _ Ht)).
    rewrite (bind_Ret _ _ _ _ _ (get_post_Some _ _ _ Hrp)).
    rewrite Hid, String.eqb_refl, Hch, last_child_snoc.
    cbn [andb negb truthy].
    rewrite (bind_Ret _ _ _ _ _ (opt_PostHashHex_ref _ _ _ Hx)).
    unfold strict_eq.
    destruct (String.eqb_spec tid (PostHashHex X)) as [E|_];
      [symmetry in E; contradiction|].
    rewrite <- Hch. apply bump_parent_Some; assumption.
Qed.

Lemma addReply_to_thread_root_witness :
  addReplyToComment "T" 1%nat 4%nat Ex.bare
  = Ret tt (updated Ex.bare [with_CommentCount 2 Ex.T] 0%nat
              (mkThread 8%nat [ref 4%nat]))
  /\ addReplyToComment "T" 1%nat 4%nat Ex.s
     = Ret tt (updated Ex.s [with_CommentCount 2 Ex.T] 0%nat
                 (mkThread 8%nat [ref 2%nat; ref 3%nat])).
Proof.
  split.
  - apply (addReply_to_thread_root "T" 1%nat 4%nat 0%nat
             (mkThread 1%nat []) Ex.T Ex.T Ex.bare);
      solve [reflexivity | safe_literal].
  - apply (proj2 (addReply_to_thread_root "T" 1%nat 4%nat 0%nat
                    Ex.thread_T Ex.T Ex.T Ex.s eq_refl eq_refl eq_refl
                    eq_refl eq_refl ltac:(safe_literal))
             [ref 2%nat] 3%nat Ex.Y); [reflexivity|reflexivity|discriminate].
Defined.

(** C5 (as the code behaves).  On a thread whose chain is not empty and
    ends with [undefined], as the flattener leaves it below a post with an
    empty [Comments] array, [lastChild] is falsy: a reply to the thread
    root takes the first branch, which increments the parent and replaces
    the whole chain by [[R]].  The chain is not left unchanged, and [R] is
    added. *)
Theorem addReply_to_root_after_undefined (tid : string)
  (rp reply t : addr) (T : Thread) (RP Par : Post) (pre : list value)
  (s : State) :
  JsMap.get tid (threadMap s) = Some t ->
  threadObjs s !! t = Some T ->
  posts s !! parent T = Some Par ->
  posts s !! rp = Some RP ->
  PostHashHex RP = tid ->
  children T = pre ++ [undefined] ->
  safe_integer (CommentCount Par) ->
  addReplyToComment tid rp reply s
  = Ret tt (updated s [with_CommentCount (CommentCount Par + 1) Par] t
              (mkThread (length (posts s)) [ref reply])).
Proof.
  intros Hget Ht Hpar Hrp Hid Hch _.
  enter_addReply Hget Ht Hrp.
  rewrite Hid, String.eqb_refl, Hch, last_child_snoc.
  cbn [andb negb truthy].
  rewrite (bind_Ret _ _ _ _ _ (bump_parent_Some _ _ _ _ _ Ht Hpar)).
  erewrite set_children_Some
    by (simpl; eapply lookup_insert_same; exact Ht).
  unfold updated, with_threadObjs. simpl.
  rewrite insert_insert_same. reflexivity.
Qed.

Lemma addReply_to_root_after_undefined_witness :
  addReplyToComment "A" 1%nat 3%nat Trail.built
  = Ret tt (updated Trail.built [with_CommentCount 2 Chain.A] 0%nat
              (mkThread 4%nat [ref 3%nat])).
Proof.
  apply (addReply_to_root_after_undefined "A" 1%nat 3%nat 0%nat
           (mkThread 1%nat [ref 2%nat; undefined]) Chain.A Chain.A
           [ref 2%nat] Trail.built);
    solve [reflexivity | safe_literal].
Defined.

(** C4.  Replying to the last child [X] of a non-empty chain, the count
    of [X] being a safe integer: the last slot holds a new object, a copy
    of [X] with [CommentCount + 1]; [R] is appended after it; the parent is
    replaced by a new object with the same fields; the elements before the
    last are the same. *)
Theorem addReply_to_last_child (tid : string) (rp reply t x : addr)
  (T : Thread) (RP X Par : Post) (pre : list value) (s : State) :
  JsMap.get tid (threadMap s) = Some t ->
  threadObjs s !! t = Some T ->
  posts s !! parent T = Some Par ->
  children T = pre ++ [ref x] ->
  posts s !! x = Some X ->
  posts s !! rp = Some RP ->
  PostHashHex RP = PostHashHex X ->
  safe_integer (CommentCount X) ->
  addReplyToComment tid rp reply s
  = Ret tt (updated s [with_CommentCount (CommentCount X + 1) X; Par] t
              (mkThread (S (length (posts s)))
                 (pre ++ [ref (length (posts s)); ref reply]))).
Proof.
  intros Hget Ht Hpar Hch Hx Hrp Hid _.
  enter_addReply Hget Ht Hrp.
  rewrite Hch, last_child_snoc. cbn [andb negb truthy].
  rewrite andb_false_r.
  rewrite (bind_Ret _ _ _ _ _ (opt_PostHashHex_ref _ _ _ Hx)).
  unfold strict_eq. rewrite Hid, String.eqb_refl.
  rewrite (bind_Ret _ _ _ _ _ (get_post_Some _ _ _ Hx)).
  unfold bind at 1. unfold new_post.
  set (s1 := with_posts _ s).
  assert (Ht1 : threadObjs s1 !! t = Some T) by exact Ht.
  assert (Hpar1 : posts s1 !! parent T = Some Par).
  { subst s1. simpl. apply lookup_snoc_old; exact Hpar. }
  rewrite (bind_Ret _ _ _ _ _ (copy_parent_Some _ _ _ _ Ht1 Hpar1)).
  set (s2 := updated s1 _ _ _).
  assert (Ht2 : threadObjs s2 !! t
                = Some (mkThread (length (posts s1)) (children T))).
  { subst s2. simpl. eapply lookup_insert_same; exact Ht. }
  rewrite (bind_Ret _ _ _ _ _ (get_thread_Some _ _ _ Ht2)).
  rewrite (set_children_Some _ _ _ _ Ht2).
  cbn [children parent]. rewrite Hch.
  replace (Z.of_nat (length (pre ++ [ref x])) - 1)
    with (Z.of_nat (length pre)) by (rewrite length_app; simpl; lia).
  rewrite JsArrayFacts.slice_prefix.
  subst s2 s1. unfold updated, with_threadObjs, with_posts. simpl.
  rewrite insert_insert_same, <- app_assoc, length_app. simpl.
  replace (length (posts s) + 1)%nat with (S (length (posts s))) by lia.
  reflexivity.
Qed.

Lemma addReply_to_last_child_witness :
  addReplyToComment "T" 3%nat 4%nat Ex.s
  = Ret tt (updated Ex.s [with_CommentCount 1 Ex.Y; Ex.T] 0%nat
              (mkThread 9%nat [ref 2%nat; ref 8%nat; ref 4%nat])).
Proof.
  apply (addReply_to_last_child "T" 3%nat 4%nat 0%nat 3%nat Ex.thread_T
           Ex.Y Ex.Y Ex.T [ref 2%nat] Ex.s);
    solve [reflexivity | safe_literal].
Defined.

(** Case 4 up to the search of the chain. *)
Lemma addReply_case4 (tid : string) (rp reply t : addr) (T : Thread)
  (RP : Post) (s : State) :
  JsMap.get tid (threadMap s) = Some t ->
  threadObjs s !! t = Some T ->
  posts s !! rp = Some RP ->
  PostHashHex RP <> tid ->
  last_differs (posts s) (PostHashHex RP) (children T) ->
  addReplyToComment tid rp reply s
  = (indexToReplace <- findIndex (children T) (PostHashHex RP) ;;
     copy_parent t ;;
     T' <- get_thread t ;;
     set_children t
       (JsArray.slice (children T') 0 indexToReplace
        ++ [ref (length (posts s))]
        ++ JsArray.slice (children T') (indexToReplace + 1)
             (Z.of_nat (length (children T')))))
      (with_posts
         (fun ps => ps ++ [with_CommentCount (CommentCount RP + 1) RP]) s).
Proof.
  intros Hget Ht Hrp Hne Hlast.
  enter_addReply Hget Ht Hrp.
  destruct (String.eqb_spec (PostHashHex RP) tid) as [E|_]; [contradiction|].
  cbn [andb]. unfold last_differs in Hlast.
  destruct (last_child (children T)) as [[|l]|] eqn:Hlc.
  - cbn [opt_PostHashHex]. rewrite (bind_Ret _ _ _ _ _ eq_refl).
    cbn [strict_eq]. unfold bind at 1. unfold new_post.
    erewrite bind_Ret by (apply get_thread_Some; exact Ht). reflexivity.
  - destruct Hlast as (L & HL & HLne).
    rewrite (bind_Ret _ _ _ _ _ (opt_PostHashHex_ref _ _ _ HL)).
    cbn [strict_eq].
    destruct (String.eqb_spec (PostHashHex RP) (PostHashHex L)) as [E|_];
      [symmetry in E; contradiction|].
    unfold bind at 1. unfold new_post.
    erewrite bind_Ret by (apply get_thread_Some; exact Ht). reflexivity.
  - cbn [opt_PostHashHex]. rewrite (bind_Ret _ _ _ _ _ eq_refl).
    cbn [strict_eq]. unfold bind at 1. unfold new_post.
    erewrite bind_Ret by (apply get_thread_Some; exact Ht). reflexivity.
Qed.

(** C6 (as the code behaves).  Replying to a post [P] whose id is that of
    a chain element before the last, and is not the thread id, the
    elements before the match being posts: the slot of the match holds a
    new object which is a copy of [P], the post that was passed, with the
    count of [P] plus one, and not a copy of the chain element.  The chain
    keeps its length and its other elements; the parent is replaced by a
    new object with the same fields; [R] is stored nowhere.
    ([last_differs] says that the match is not in the last slot; the
    count of [P] is a safe integer.) *)
Theorem addReply_mid_chain (tid : string) (rp reply t x : addr)
  (T : Thread) (RP X Par : Post) (pre post : list value) (s : State) :
  JsMap.get tid (threadMap s) = Some t ->
  threadObjs s !! t = Some T ->
  posts s !! parent T = Some Par ->
  posts s !! rp = Some RP ->
  PostHashHex RP <> tid ->
  children T = pre ++ ref x :: post ->
  Forall (other_post (posts s) (PostHashHex RP)) pre ->
  posts s !! x = Some X ->
  PostHashHex X = PostHashHex RP ->
  last_differs (posts s) (PostHashHex RP) (children T) ->
  safe_integer (CommentCount RP) ->
  addReplyToComment tid rp reply s
  = Ret tt (updated s [with_CommentCount (CommentCount RP + 1) RP; Par] t
              (mkThread (S (length (posts s)))
                 (pre ++ ref (length (posts s)) :: post))).
Proof.
  intros Hget Ht Hpar Hrp Hne Hch Hpre Hx HX Hlast _.
  rewrite (addReply_case4 _ _ _ _ _ _ _ Hget Ht Hrp Hne Hlast).
  set (s1 := with_posts _ s).
  assert (Hfind : findIndex (children T) (PostHashHex RP) s1
                  = Ret (Z.of_nat (length pre)) s1).
  { unfold findIndex. rewrite Hch.
    rewrite (findIndex_from_found pre post x X (PostHashHex RP) s1).
    - reflexivity.
    - subst s1. simpl. apply Forall_other_post_snoc; exact Hpre.
    - subst s1. simpl. apply lookup_snoc_old; exact Hx.
    - exact HX. }
  rewrite (bind_Ret _ _ _ _ _ Hfind).
  assert (Ht1 : threadObjs s1 !! t = Some T) by exact Ht.
  assert (Hpar1 : posts s1 !! parent T = Some Par).
  { subst s1. simpl. apply lookup_snoc_old; exact Hpar. }
  rewrite (bind_Ret _ _ _ _ _ (copy_parent_Some _ _ _ _ Ht1 Hpar1)).
  set (s2 := updated s1 _ _ _).
  assert (Ht2 : threadObjs s2 !! t
                = Some (mkThread (length (posts s1)) (children T))).
  { subst s2. simpl. eapply lookup_insert_same; exact Ht. }
  rewrite (bind_Ret _ _ _ _ _ (get_thread_Some _ _ _ Ht2)).
  rewrite (set_children_Some _ _ _ _ Ht2).
  cbn [children parent]. rewrite Hch.
  rewrite JsArrayFacts.slice_prefix.
  replace (pre ++ ref x :: post) with ((pre ++ [ref x]) ++ post)
    by (rewrite <- app_assoc; reflexivity).
  replace (Z.of_nat (length pre) + 1)
    with (Z.of_nat (length (pre ++ [ref x])))
    by (rewrite length_app; simpl; lia).
  rewrite JsArrayFacts.slice_suffix.
  subst s2 s1. unfold updated, with_threadObjs, with_posts. simpl.
  rewrite insert_insert_same, <- app_assoc, length_app. simpl.
  replace (length (posts s) + 1)%nat with (S (length (posts s))) by lia.
  reflexivity.
Qed.

Lemma addReply_mid_chain_witness :
  addReplyToComment "T" 6%nat 4%nat Ex.s
  = Ret tt (updated Ex.s [with_CommentCount 1 Ex.X_stale; Ex.T] 0%nat
              (mkThread 9%nat [ref 8%nat; ref 3%nat])).
Proof.
  apply (addReply_mid_chain "T" 6%nat 4%nat 0%nat 2%nat Ex.thread_T
           Ex.X_stale Ex.X Ex.T [] [ref 3%nat] Ex.s);
    try reflexivity; try discriminate; try safe_literal.
  - constructor.
  - exists Ex.Y. split; [reflexivity|discriminate].
Defined.

(** On the same thread, when the post passed is another object with the
    id of the chain element [X] (here [X_stale], count 0, where [X] has
    count 5), the slot gets a copy of the post passed, with count 1, and
    not a copy of [X] with count 6. *)
Lemma addReply_mid_chain_copies_argument :
  addReplyToComment "T" 6%nat 4%nat Ex.s
  = Ret tt (updated Ex.s [with_CommentCount 1 Ex.X_stale; Ex.T] 0%nat
              (mkThread 9%nat [ref 8%nat; ref 3%nat]))
  /\ with_CommentCount 1 Ex.X_stale
     <> with_CommentCount (CommentCount Ex.X + 1) Ex.X.
Proof. split; [reflexivity|discriminate]. Qed.

(** And when an [undefined] slot comes before the match, as the
    flattener leaves one below a post with an empty [Comments] array, the
    search of the fourth branch throws on it: the copy of the post passed
    has been allocated, the thread is as it was. *)
Lemma addReply_throws_after_undefined (tid : string) (rp reply t : addr)
  (T : Thread) (RP : Post) (pre post : list value) (s : State) :
  JsMap.get tid (threadMap s) = Some t ->
  threadObjs s !! t = Some T ->
  posts s !! rp = Some RP ->
  PostHashHex RP <> tid ->
  children T = pre ++ undefined :: post ->
  Forall (other_post (posts s) (PostHashHex RP)) pre ->
  last_differs (posts s) (PostHashHex RP) (children T) ->
  safe_integer (CommentCount RP) ->
  addReplyToComment tid rp reply s
  = Throw (with_posts
             (fun ps => ps ++ [with_CommentCount (CommentCount RP + 1) RP])
             s).
Proof.
  intros Hget Ht Hrp Hne Hch Hpre Hlast _.
  rewrite (addReply_case4 _ _ _ _ _ _ _ Hget Ht Hrp Hne Hlast).
  apply bind_Throw. unfold findIndex. rewrite Hch.
  apply findIndex_from_undefined. simpl.
  apply Forall_other_post_snoc; exact Hpre.
Qed.

Example addReply_throws_in_gap :
  addReplyToComment "T" 3%nat 6%nat Gap.built
  = Throw (with_posts (fun ps => ps ++ [with_CommentCount 2 Gap.A2])
             Gap.built).
Proof. reflexivity. Qed.

(** ** Hiding a comment *)

(** Runs [hideComment] up to its test on [parentComment]. *)
Ltac enter_hide Hc Hpc1 :=
  unfold hideComment, getThread;
  rewrite (bind_Ret _ _ _ _ _ (gets_eq _ _));
  rewrite (bind_Ret _ _ _ _ _ (get_post_Some _ _ _ Hc));
  rewrite (bind_Ret _ _ _ _ _ (put_post_hidden _ _ _));
  rewrite (bind_Ret _ _ _ _ _ (get_post_Some _ _ _ Hpc1)).

(** [hideComment(C, P, T.id)] on a registered thread whose chain, up to
    the match, is as [Thread] declares it: it writes [IsHidden = true]
    into the object [C] itself, then replaces the node with the id of [P]
    by a new object, a copy of the node with [CommentCount - 1]: the
    parent when [P.id] is the thread id, otherwise the first chain element
    with that id, in its slot, the other elements being the same.  (The
    count of the node is a safe integer.) *)
Theorem hideComment_decrements (tid : string) (c pc t : addr) (T : Thread)
  (C PC : Post) (s : State) :
  JsMap.get tid (threadMap s) = Some t ->
  threadObjs s !! t = Some T ->
  posts s !! c = Some C ->
  posts s !! pc = Some PC ->
  (PostHashHex PC = tid ->
   forall Par,
     posts (hidden s c C) !! parent T = Some Par ->
     safe_integer (CommentCount Par) ->
     hideComment c pc tid s
     = Ret tt (updated (hidden s c C)
                 [with_CommentCount (CommentCount Par - 1) Par] t
                 (mkThread (length (posts s)) (children T))))
  /\
  (PostHashHex PC <> tid ->
   forall pre x X post,
     children T = pre ++ ref x :: post ->
     Forall (other_post (posts s) (PostHashHex PC)) pre ->
     posts (hidden s c C) !! x = Some X ->
     PostHashHex X = PostHashHex PC ->
     safe_integer (CommentCount X) ->
     hideComment c pc tid s
     = Ret tt (updated (hidden s c C)
                 [with_CommentCount (CommentCount X - 1) X] t
                 (mkThread (parent T)
                    (pre ++ ref (length (posts s)) :: post)))).
Proof.
  intros Hget Ht Hc Hpc.
  destruct (hidden_lookup s c C pc PC Hc Hpc) as (PC1 & Hpc1 & Hid1 & _).
  assert (Ht1 : threadObjs (hidden s c C) !! t = Some T) by exact Ht.
  assert (Hlen : length (posts (hidden s c C)) = length (posts s)).
  { simpl. apply length_insert. }
  split.
  - intros Hid Par Hpar _. enter_hide Hc Hpc1.
    rewrite Hid1, Hid, String.eqb_refl.
    rewrite Hget.
    rewrite (bump_parent_Some _ _ _ _ _ Ht1 Hpar). rewrite Hlen.
    reflexivity.
  - intros Hne pre x X post Hch Hpre Hx HX _. enter_hide Hc Hpc1.
    rewrite Hid1.
    destruct (String.eqb_spec (PostHashHex PC) tid) as [E|_];
      [contradiction|].
    rewrite Hget.
    rewrite (bind_Ret _ _ _ _ _ (get_thread_Some _ _ _ Ht1)).
    assert (Hfind : findIndex (children T) (PostHashHex PC) (hidden s c C)
                    = Ret (Z.of_nat (length pre)) (hidden s c C)).
    { unfold findIndex. rewrite Hch.
      rewrite (findIndex_from_found pre post x X (PostHashHex PC)
                 (hidden s c C)); [reflexivity| |exact Hx|exact HX].
      eapply Forall_impl; [exact Hpre|]. intros v.
      apply other_post_hidden; exact Hc. }
    rewrite (bind_Ret _ _ _ _ _ Hfind).
    rewrite Hch, JsArrayFacts.at_index_middle.
    rewrite (bind_Ret _ _ _ _ _ (get_post_Some _ _ _ Hx)).
    unfold bind at 1. unfold new_post.
    erewrite bind_Ret by (apply get_thread_Some; exact Ht).
    erewrite set_children_Some by exact Ht.
    rewrite Hch, Nat2Z.id, Hlen.
    unfold updated, with_threadObjs, with_posts. simpl.
    rewrite insert_middle. reflexivity.
Qed.

Lemma hideComment_decrements_witness :
  hideComment 3%nat 1%nat "T" Ex.s
  = Ret tt (updated (hidden Ex.s 3%nat Ex.Y) [with_CommentCount 0 Ex.T]
              0%nat (mkThread 8%nat [ref 2%nat; ref 3%nat]))
  /\ hideComment 3%nat 2%nat "T" Ex.s
     = Ret tt (updated (hidden Ex.s 3%nat Ex.Y) [with_CommentCount 4 Ex.X]
                 0%nat (mkThread 1%nat [ref 8%nat; ref 3%nat])).
Proof.
  split.
  - apply (proj1 (hideComment_decrements "T" 3%nat 1%nat 0%nat Ex.thread_T
                    Ex.Y Ex.T Ex.s eq_refl eq_refl eq_refl eq_refl)
             eq_refl Ex.T eq_refl ltac:(safe_literal)).
  - apply (proj2 (hideComment_decrements "T" 3%nat 2%nat 0%nat Ex.thread_T
                    Ex.Y Ex.X Ex.s eq_refl eq_refl eq_refl eq_refl)
             ltac:(discriminate) [] 2%nat Ex.X [ref 3%nat] eq_refl
             ltac:(constructor) eq_refl eq_refl ltac:(safe_literal)).
Defined.

(** C7 (as the code behaves).  On a thread whose chain has an
    [undefined] slot, as the flattener leaves one below a post with an
    empty [Comments] array, and for a [parentComment] whose id is not the
    thread id and is the id of no element before that slot, so that a
    matching element can only come after it: [hideComment] writes
    [IsHidden = true] into [commentToHide] and then throws, on
    [child.PostHashHex] in the search, without having decremented any
    count. *)
Theorem hideComment_throws_after_undefined (tid : string) (c pc t : addr)
  (T : Thread) (C PC : Post) (pre post : list value) (s : State) :
  JsMap.get tid (threadMap s) = Some t ->
  threadObjs s !! t = Some T ->
  posts s !! c = Some C ->
  posts s !! pc = Some PC ->
  PostHashHex PC <> tid ->
  children T = pre ++ undefined :: post ->
  Forall (other_post (posts s) (PostHashHex PC)) pre ->
  hideComment c pc tid s = Throw (hidden s c C).
Proof.
  intros Hget Ht Hc Hpc Hne Hch Hpre.
  destruct (hidden_lookup s c C pc PC Hc Hpc) as (PC1 & Hpc1 & Hid1 & _).
  assert (Ht1 : threadObjs (hidden s c C) !! t = Some T) by exact Ht.
  enter_hide Hc Hpc1. rewrite Hid1.
  destruct (String.eqb_spec (PostHashHex PC) tid) as [E|_];
    [contradiction|].
  rewrite Hget.
  rewrite (bind_Ret _ _ _ _ _ (get_thread_Some _ _ _ Ht1)).
  apply bind_Throw. unfold findIndex. rewrite Hch.
  apply findIndex_from_undefined.
  eapply Forall_impl; [exact Hpre|]. intros v.
  apply other_post_hidden; exact Hc.
Qed.

Lemma hideComment_throws_after_undefined_witness :
  hideComment 5%nat 3%nat "T" Gap.built
  = Throw (hidden Gap.built 5%nat Gap.C).
Proof.
  apply (hideComment_throws_after_undefined "T" 5%nat 3%nat 0%nat
           (mkThread 1%nat [ref 2%nat; undefined; ref 3%nat; ref 4%nat])
           Gap.C Gap.A2 [ref 2%nat] [ref 3%nat; ref 4%nat] Gap.built);
    try reflexivity; try discriminate.
  other_posts.
Defined.

(** C9.  With a thread id that is not a key of the map,
    [addReplyToComment] throws at once, and [hideComment] throws after
    having written [IsHidden = true] into [commentToHide]: neither
    returns. *)
Theorem unknown_thread_faults (tid : string) (s : State) :
  JsMap.get tid (threadMap s) = None ->
  (forall rp reply, addReplyToComment tid rp reply s = Throw s)
  /\
  (forall c pc C PC,
     posts s !! c = Some C -> posts s !! pc = Some PC ->
     hideComment c pc tid s = Throw (hidden s c C)).
Proof.
  intros Hget. split.
  - intros rp reply. unfold addReplyToComment.
    rewrite (bind_Ret _ _ _ _ _ (gets_eq _ _)). rewrite Hget. reflexivity.
  - intros c pc C PC Hc Hpc.
    destruct (hidden_lookup s c C pc PC Hc Hpc) as (PC1 & Hpc1 & Hid1 & _).
    enter_hide Hc Hpc1. rewrite Hget.
    destruct (String.eqb (PostHashHex PC1) tid); reflexivity.
Qed.

Lemma unknown_thread_faults_witness :
  addReplyToComment "Q" 5%nat 4%nat Ex.s = Throw Ex.s
  /\ hideComment 4%nat 5%nat "Q" Ex.s = Throw (hidden Ex.s 4%nat Ex.R).
Proof.
  destruct (unknown_thread_faults "Q" Ex.s eq_refl) as [Hadd Hhide].
  split.
  - apply Hadd.
  - apply (Hhide 4%nat 5%nat Ex.R Ex.Q); reflexivity.
Defined.

(** C3 (as the code behaves).  When the id of the post replied to is
    neither the thread id nor the id of any chain element,
    [addReplyToComment] does change the thread: [findIndex] gives [-1],
    [slice(0, -1)] is the chain without its last element and
    [slice(0, length)] is the whole chain, so the new chain is the old one
    without its last element, then a copy of the post replied to, then the
    whole old chain.  In the same situation [hideComment] throws, after
    the write of [IsHidden], on [thread.children[-1].CommentCount]. *)
Theorem no_match_is_not_a_noop (tid : string) (t : addr) (T : Thread)
  (Par : Post) (s : State) :
  JsMap.get tid (threadMap s) = Some t ->
  threadObjs s !! t = Some T ->
  posts s !! parent T = Some Par ->
  (forall rp reply RP,
     posts s !! rp = Some RP ->
     PostHashHex RP <> tid ->
     Forall (other_post (posts s) (PostHashHex RP)) (children T) ->
     addReplyToComment tid rp reply s
     = Ret tt (updated s [with_CommentCount (CommentCount RP + 1) RP; Par] t
                 (mkThread (S (length (posts s)))
                    (removelast (children T)
                     ++ ref (length (posts s)) :: children T))))
  /\
  (forall c pc C PC,
     posts s !! c = Some C ->
     posts s !! pc = Some PC ->
     PostHashHex PC <> tid ->
     Forall (other_post (posts s) (PostHashHex PC)) (children T) ->
     hideComment c pc tid s = Throw (hidden s c C)).
Proof.
  intros Hget Ht Hpar. split.
  - intros rp reply RP Hrp Hne Hall.
    rewrite (addReply_case4 _ _ _ _ _ _ _ Hget Ht Hrp Hne
               (last_differs_Forall _ _ _ Hall)).
    set (s1 := with_posts _ s).
    assert (Hfind : findIndex (children T) (PostHashHex RP) s1
                    = Ret (-1) s1).
    { apply findIndex_from_absent. subst s1. simpl.
      apply Forall_other_post_snoc; exact Hall. }
    rewrite (bind_Ret _ _ _ _ _ Hfind).
    assert (Ht1 : threadObjs s1 !! t = Some T) by exact Ht.
    assert (Hpar1 : posts s1 !! parent T = Some Par).
    { subst s1. simpl. apply lookup_snoc_old; exact Hpar. }
    rewrite (bind_Ret _ _ _ _ _ (copy_parent_Some _ _ _ _ Ht1 Hpar1)).
    set (s2 := updated s1 _ _ _).
    assert (Ht2 : threadObjs s2 !! t
                  = Some (mkThread (length (posts s1)) (children T))).
    { subst s2. simpl. eapply lookup_insert_same; exact Ht. }
    rewrite (bind_Ret _ _ _ _ _ (get_thread_Some _ _ _ Ht2)).
    rewrite (set_children_Some _ _ _ _ Ht2).
    cbn [children parent].
    rewrite slice_removelast. change (-1 + 1) with 0.
    rewrite JsArrayFacts.slice_all.
    subst s2 s1. unfold updated, with_threadObjs, with_posts. simpl.
    rewrite insert_insert_same, <- app_assoc, length_app. simpl.
    replace (length (posts s) + 1)%nat with (S (length (posts s))) by lia.
    reflexivity.
  - intros c pc C PC Hc Hpc Hne Hall.
    destruct (hidden_lookup s c C pc PC Hc Hpc) as (PC1 & Hpc1 & Hid1 & _).
    assert (Ht1 : threadObjs (hidden s c C) !! t = Some T) by exact Ht.
    enter_hide Hc Hpc1. rewrite Hid1.
    destruct (String.eqb_spec (PostHashHex PC) tid) as [E|_];
      [contradiction|].
    rewrite Hget.
    rewrite (bind_Ret _ _ _ _ _ (get_thread_Some _ _ _ Ht1)).
    assert (Hfind : findIndex (children T) (PostHashHex PC) (hidden s c C)
                    = Ret (-1) (hidden s c C)).
    { apply findIndex_from_absent.
      eapply Forall_impl; [exact Hall|]. intros v.
      apply other_post_hidden; exact Hc. }
    rewrite (bind_Ret _ _ _ _ _ Hfind).
    rewrite JsArrayFacts.at_index_neg. reflexivity.
Qed.

Lemma no_match_is_not_a_noop_witness :
  addReplyToComment "T" 5%nat 4%nat Ex.s
  = Ret tt (updated Ex.s [with_CommentCount 1 Ex.Q; Ex.T] 0%nat
              (mkThread 9%nat [ref 2%nat; ref 8%nat; ref 2%nat; ref 3%nat]))
  /\ hideComment 4%nat 5%nat "T" Ex.s = Throw (hidden Ex.s 4%nat Ex.R).
Proof.
  destruct (no_match_is_not_a_noop "T" 0%nat Ex.thread_T Ex.T Ex.s
              eq_refl eq_refl eq_refl) as [Hadd Hhide].
  split.
  - apply (Hadd 5%nat 4%nat Ex.Q); [reflexivity|discriminate|other_posts].
  - apply (Hhide 4%nat 5%nat Ex.R Ex.Q);
      [reflexivity|reflexivity|discriminate|other_posts].
Defined.

(** ** The frame of [addReplyToComment] and [hideComment] *)

Lemma frame_refl (s : State) : frame s s.
Proof. split; auto. Qed.

Lemma frame_trans (s1 s2 s3 : State) :
  frame s1 s2 -> frame s2 s3 -> frame s1 s3.
Proof.
  intros [K1 M1 A1 C1] [K2 M2 A2 C2]. split.
  - auto.
  - congruence.
  - congruence.
  - congruence.
Qed.

Lemma frame_wf (s s' : State) : frame s s' -> wf s -> wf s'.
Proof.
  intros [K Hm Ha Hc] [Hk Hco Hca]. split.
  - rewrite Hm. exact Hk.
  - intros k t Hin. rewrite Hm in Hin. auto.
  - intros a Hcache. rewrite Hc in Hcache. rewrite Ha, Hm. auto.
Qed.

Lemma steps_bind {A B : Type} (m : M A) (k : A -> M B) :
  steps frame m -> (forall a, steps frame (k a)) -> steps frame (bind m k).
Proof.
  intros Hm Hk s. unfold bind. specialize (Hm s).
  destruct (m s) as [a s1|s1| |]; auto.
  specialize (Hk a s1). destruct (k a s1) as [b s2|s2| |]; auto.
  - eapply frame_trans; eassumption.
  - eapply frame_trans; eassumption.
Qed.

Lemma steps_ret {A : Type} (a : A) : steps frame (ret a).
Proof. intros s. apply frame_refl. Qed.

Lemma steps_type_error {A : Type} : steps frame (@type_error A).
Proof. intros s. apply frame_refl. Qed.

Lemma steps_gets {A : Type} (f : State -> A) : steps frame (gets f).
Proof. intros s. apply frame_refl. Qed.

Lemma steps_get_post (a : addr) : steps frame (get_post a).
Proof.
  intros s. unfold get_post.
  destruct (posts s !! a); [apply frame_refl|exact I].
Qed.

Lemma steps_get_thread (t : addr) : steps frame (get_thread t).
Proof.
  intros s. unfold get_thread.
  destruct (threadObjs s !! t); [apply frame_refl|exact I].
Qed.

Lemma key_of_new_post (s : State) (p : Post) (t : addr) (k : string) :
  key_of s t = Some k ->
  key_of (with_posts (fun ps => ps ++ [p]) s) t = Some k.
Proof.
  unfold key_of. simpl. destruct (threadObjs s !! t) as [T|]; [|discriminate].
  destruct (posts s !! parent T) as [q|] eqn:E; [|discriminate].
  rewrite (lookup_snoc_old _ _ _ _ E). auto.
Qed.

Lemma steps_new_post (p : Post) : steps frame (new_post p).
Proof.
  intros s. unfold new_post. split; try reflexivity.
  intros t k. apply key_of_new_post.
Qed.

Lemma steps_set_children (t : addr) (v : list value) :
  steps frame (set_children t v).
Proof.
  intros s. unfold set_children, bind, get_thread.
  destruct (threadObjs s !! t) as [T|] eqn:Ht; [|exact I].
  unfold put_thread, modify. split; try reflexivity.
  intros t' k. unfold key_of. simpl.
  destruct (Nat.eq_dec t' t) as [->|Hne].
  - rewrite Ht, (lookup_insert_same _ _ _ _ Ht). auto.
  - rewrite list_lookup_insert_ne by congruence. auto.
Qed.

(** Replacing the parent of a thread by a new post with the same id. *)
Lemma frame_reparent (s : State) (t : addr) (T : Thread) (Par P' : Post) :
  threadObjs s !! t = Some T ->
  posts s !! parent T = Some Par ->
  PostHashHex P' = PostHashHex Par ->
  frame s (updated s [P'] t (mkThread (length (posts s)) (children T))).
Proof.
  intros Ht Hpar Hid. split; try reflexivity.
  intros t' k. unfold key_of. simpl.
  destruct (Nat.eq_dec t' t) as [->|Hne].
  - rewrite Ht, Hpar, (lookup_insert_same _ _ _ _ Ht). simpl.
    rewrite lookup_snoc_new. congruence.
  - rewrite list_lookup_insert_ne by congruence.
    destruct (threadObjs s !! t') as [T'|]; [|discriminate].
    destruct (posts s !! parent T') as [q|] eqn:E; [|discriminate].
    rewrite (lookup_snoc_old _ _ _ _ E). auto.
Qed.

Lemma steps_bump_parent (t : addr) (d : Z) : steps frame (bump_parent t d).
Proof.
  intros s.
  destruct (threadObjs s !! t) as [T|] eqn:Ht.
  - destruct (posts s !! parent T) as [Par|] eqn:Hpar.
    + rewrite (bump_parent_Some _ _ _ _ _ Ht Hpar).
      eapply frame_reparent; eauto.
    + unfold bump_parent.
      rewrite (bind_Ret _ _ _ _ _ (get_thread_Some _ _ _ Ht)).
      unfold bind, get_post. rewrite Hpar. exact I.
  - unfold bump_parent, bind, get_thread. rewrite Ht. exact I.
Qed.

Lemma steps_copy_parent (t : addr) : steps frame (copy_parent t).
Proof.
  intros s.
  destruct (threadObjs s !! t) as [T|] eqn:Ht.
  - destruct (posts s !! parent T) as [Par|] eqn:Hpar.
    + rewrite (copy_parent_Some _ _ _ _ Ht Hpar).
      eapply frame_reparent; eauto.
    + unfold copy_parent.
      rewrite (bind_Ret _ _ _ _ _ (get_thread_Some _ _ _ Ht)).
      unfold bind, get_post. rewrite Hpar. exact I.
  - unfold copy_parent, bind, get_thread. rewrite Ht. exact I.
Qed.

Lemma steps_findIndex_from (l : list value) (id : string) :
  forall i, steps frame (findIndex_from i l id).
Proof.
  induction l as [|[|a] l IH]; intros i; simpl.
  - apply steps_ret.
  - apply steps_type_error.
  - apply steps_bind; [apply steps_get_post|]. intros p.
    destruct (String.eqb (PostHashHex p) id); [apply steps_ret|apply IH].
Qed.

Lemma steps_opt_PostHashHex (v : option value) :
  steps frame (opt_PostHashHex v).
Proof.
  destruct v as [[|a]|]; simpl; try apply steps_ret.
  apply steps_bind; [apply steps_get_post|]. intros p. apply steps_ret.
Qed.

Create HintDb steps.
#[local] Hint Resolve steps_ret steps_type_error steps_gets steps_get_post
  steps_get_thread steps_new_post steps_set_children steps_bump_parent
  steps_copy_parent steps_findIndex_from steps_opt_PostHashHex : steps.

Ltac steps_tac :=
  repeat first
    [ solve [auto with steps]
    | apply steps_bind; [solve [auto with steps]|intros ?]
    | match goal with
      | |- steps _ (if ?b then _ else _) => destruct b
      | |- steps _ (match ?x with _ => _ end) => destruct x
      end ].

Lemma steps_addReplyToComment (tid : string) (rp reply : addr) :
  steps frame (addReplyToComment tid rp reply).
Proof. unfold addReplyToComment, findIndex. steps_tac. Qed.

Lemma frame_hidden (s : State) (c : addr) (C : Post) :
  posts s !! c = Some C -> frame s (hidden s c C).
Proof.
  intros Hc. split; try reflexivity.
  intros t k. unfold key_of.
  change (threadObjs (hidden s c C)) with (threadObjs s).
  destruct (threadObjs s !! t) as [T|]; [|discriminate].
  destruct (posts s !! parent T) as [q|] eqn:E; [|discriminate].
  destruct (hidden_lookup s c C _ _ Hc E) as (q' & -> & Hid & _).
  congruence.
Qed.

Lemma steps_hideComment (c pc : addr) (tid : string) :
  steps frame (hideComment c pc tid).
Proof.
  intros s. unfold hideComment, getThread.
  rewrite (bind_Ret _ _ _ _ _ (gets_eq _ _)).
  destruct (posts s !! c) as [C|] eqn:Hc.
  - rewrite (bind_Ret _ _ _ _ _ (get_post_Some _ _ _ Hc)).
    rewrite (bind_Ret _ _ _ _ _ (put_post_hidden _ _ _)).
    pose proof (frame_hidden s c C Hc) as Hf.
    match goal with
    | |- match ?m (hidden s c C) with _ => _ end =>
        assert (Hs : steps frame m)
    end.
    { unfold findIndex. steps_tac. }
    specialize (Hs (hidden s c C)).
    match goal with
    | |- match ?r with _ => _ end => destruct r
    end; auto; eapply frame_trans; eassumption.
  - unfold bind, get_post. rewrite Hc. exact I.
Qed.

(** ** Every operation keeps the invariant *)

Lemma steps_preserves {A : Type} (m : M A) : steps frame m -> preserves m.
Proof.
  intros H s Hwf. specialize (H s).
  destruct (m s); auto; eapply frame_wf; eassumption.
Qed.

Lemma preserves_bind {A B : Type} (m : M A) (k : A -> M B) :
  preserves m -> (forall a, preserves (k a)) -> preserves (bind m k).
Proof.
  intros Hm Hk s Hwf. unfold bind. specialize (Hm s Hwf).
  destruct (m s) as [a s1|s1| |]; auto. apply Hk; exact Hm.
Qed.

Lemma wf_bust (s : State) : wf s -> wf (with_cache None s).
Proof.
  intros [Hk Hco Hca]. split; [exact Hk|exact Hco|].
  intros a. discriminate.
Qed.

Lemma preserves_threads : preserves threads.
Proof.
  intros s Hwf. destruct (threadArrayCache s) as [a|] eqn:Hc.
  - rewrite (threads_cached _ _ Hc). exact Hwf.
  - rewrite (threads_rebuilt _ Hc). destruct Hwf as [Hk Hco _].
    split; [exact Hk|exact Hco|].
    intros a [= <-]. simpl. apply lookup_snoc_new.
Qed.

Lemma preserves_removeThread (k : string) : preserves (removeThread k).
Proof.
  intros s Hwf. unfold removeThread.
  rewrite (bind_Ret _ _ _ _ _ (bust_cache_eq _)).
  destruct Hwf as [Hk Hco _]. split.
  - apply JsMapFacts.NoDup_delete; exact Hk.
  - intros k' t Hin. apply Hco.
    eapply JsMapFacts.In_delete; exact Hin.
  - intros a. discriminate.
Qed.

Lemma preserves_reset : preserves reset.
Proof.
  intros s _. split.
  - constructor.
  - intros k t [].
  - intros a. discriminate.
Qed.

Lemma key_of_new_thread_old (s : State) (T : Thread) (t : addr)
  (k : string) :
  key_of s t = Some k ->
  key_of (with_threadObjs (fun ts => ts ++ [T]) s) t = Some k.
Proof.
  unfold key_of. simpl.
  destruct (threadObjs s !! t) as [T'|] eqn:E; [|discriminate].
  rewrite (lookup_snoc_old _ _ _ _ E). auto.
Qed.

Lemma key_of_new_thread (s : State) (a : addr) (p : Post)
  (ch : list value) :
  posts s !! a = Some p ->
  key_of (with_threadObjs (fun ts => ts ++ [mkThread a ch]) s)
    (length (threadObjs s))
  = Some (PostHashHex p).
Proof.
  intros H. unfold key_of. simpl. rewrite lookup_snoc_new. simpl.
  rewrite H. reflexivity.
Qed.

Lemma wf_new_thread (s : State) (T : Thread) :
  wf s -> wf (with_threadObjs (fun ts => ts ++ [T]) s).
Proof.
  intros [Hk Hco Hca]. split; [exact Hk| |exact Hca].
  intros k t Hin. apply key_of_new_thread_old. apply Hco. exact Hin.
Qed.

(** Registering a thread under its own key, with no cache to keep in
    step. *)
Lemma wf_register (s : State) (k : string) (t : addr) :
  wf s -> threadArrayCache s = None -> key_of s t = Some k ->
  wf (with_threadMap (JsMap.set k t) s).
Proof.
  intros [Hk Hco _] Hnone Hkey. split.
  - apply JsMapFacts.NoDup_set; exact Hk.
  - intros k' t' Hin. simpl in Hin.
    apply JsMapFacts.In_set in Hin. destruct Hin as [[= -> ->]|Hin].
    + exact Hkey.
    + apply Hco in Hin. exact Hin.
  - intros a Hc. simpl in Hc. congruence.
Qed.

Lemma preserves_appendComment (fuel : nat) (c : addr) :
  preserves (appendComment fuel c).
Proof.
  intros s Hwf. unfold appendComment.
  rewrite (bind_Ret _ _ _ _ _ (bust_cache_eq _)).
  apply wf_bust in Hwf. set (s1 := with_cache None s) in *.
  destruct (posts s1 !! c) as [C|] eqn:Hc;
    [rewrite (bind_Ret _ _ _ _ _ (get_post_Some _ _ _ Hc))
    |rewrite (bind_Dangling _ _ _ (get_post_None _ _ Hc)); exact I].
  unfold bind at 1.
  pose proof (flattenThread_spec fuel c s1) as Hf.
  destruct (flattenThread fuel c s1) as [t s2| | |]; try exact I;
    try contradiction.
  destruct Hf as (ch & _ & -> & ->).
  unfold map_set, modify. apply wf_register.
  - apply wf_new_thread; exact Hwf.
  - reflexivity.
  - apply key_of_new_thread; exact Hc.
Qed.

Lemma preserves_forEach {A : Type} (f : A -> M unit) (l : list A) :
  (forall x, preserves (f x)) -> preserves (forEach l f).
Proof.
  intros Hf. induction l as [|x l IH]; simpl.
  - intros s Hwf. exact Hwf.
  - apply preserves_bind; [apply Hf|]. intros _. exact IH.
Qed.

Lemma preserves_addThreads (fuel : nat) (comments : option (list addr)) :
  preserves (addThreads fuel comments).
Proof.
  destruct comments as [l|]; simpl.
  - apply preserves_forEach. intros x. apply preserves_appendComment.
  - intros s Hwf. exact Hwf.
Qed.

Lemma reregister_uncached (thread : addr) (s : State) :
  uncached s ->
  match reregister thread s with
  | Ret _ s' | Throw s' => uncached s'
  | OutOfFuel | Dangling => True
  end.
Proof.
  intros [Hwf Hnone]. unfold reregister, bind, get_thread, get_post.
  destruct (threadObjs s !! thread) as [T|] eqn:Ht; [|exact I].
  destruct (posts s !! parent T) as [p|] eqn:Hp; [|exact I].
  unfold map_set, modify. split; [|exact Hnone].
  apply wf_register; [exact Hwf|exact Hnone|].
  unfold key_of. rewrite Ht, Hp. reflexivity.
Qed.

Lemma forEach_reregister_uncached (l : list addr) :
  forall s, uncached s ->
    match forEach l reregister s with
    | Ret _ s' | Throw s' => uncached s'
    | OutOfFuel | Dangling => True
    end.
Proof.
  induction l as [|x l IH]; intros s Hs; simpl.
  - exact Hs.
  - unfold bind. pose proof (reregister_uncached x s Hs) as Hx.
    destruct (reregister x s) as [[] s1|s1| |];
      [apply IH; exact Hx|exact Hx|exact I|exact I].
Qed.

Lemma preserves_prependComment (fuel : nat) (c : addr) :
  preserves (prependComment fuel c).
Proof.
  intros s Hwf. unfold prependComment.
  pose proof (preserves_threads s Hwf) as Hth.
  unfold bind at 1.
  destruct (threads s) as [a s1|s1| |]; auto.
  rewrite (bind_Ret _ _ _ _ _ (bust_cache_eq _)).
  rewrite (bind_Ret _ _ _ _ _ (modify_eq _ _)).
  set (s2 := with_threadMap _ _).
  assert (Hs2 : uncached s2).
  { split; [|reflexivity]. split.
    - constructor.
    - intros k t [].
    - intros a'. discriminate. }
  destruct (posts s2 !! c) as [C|] eqn:Hc;
    [rewrite (bind_Ret _ _ _ _ _ (get_post_Some _ _ _ Hc))
    |rewrite (bind_Dangling _ _ _ (get_post_None _ _ Hc)); exact I].
  unfold bind at 1.
  pose proof (flattenThread_spec fuel c s2) as Hf.
  destruct (flattenThread fuel c s2) as [t s3| | |]; try exact I;
    try contradiction.
  destruct Hf as (ch & _ & -> & ->).
  rewrite (bind_Ret _ _ _ _ _ (map_set_eq _ _ _)).
  set (s4 := with_threadMap _ _).
  assert (Hs4 : uncached s4).
  { split; [|reflexivity]. subst s4. apply wf_register.
    - apply wf_new_thread. apply Hs2.
    - reflexivity.
    - apply key_of_new_thread; exact Hc. }
  destruct (arrays s4 !! a) as [arr|] eqn:Harr;
    [rewrite (bind_Ret _ _ _ _ _ (get_array_Some _ _ _ Harr))
    |rewrite (bind_Dangling _ _ _ (get_array_None _ _ Harr)); exact I].
  pose proof (forEach_reregister_uncached arr s4 Hs4) as Hloop.
  fold reregister.
  destruct (forEach arr reregister s4) as [[] s5|s5| |]; auto; apply Hloop.
Qed.

(** ** The invariant holds in every reachable state *)

Lemma preserves_final {A : Type} (m : M A) (s s' : State) :
  preserves m -> wf s -> final (m s) = Some s' -> wf s'.
Proof.
  intros Hm Hwf. specialize (Hm s Hwf).
  destruct (m s); simpl; intros [= <-] || discriminate; exact Hm.
Qed.

Lemma preserves_run (c : Call) : preserves (run c).
Proof.
  destruct c; simpl.
  - apply steps_preserves. unfold threadCount. steps_tac.
  - apply preserves_bind; [apply preserves_threads|].
    intros a. apply steps_preserves. steps_tac.
  - apply steps_preserves. unfold getThread. steps_tac.
  - apply preserves_removeThread.
  - apply preserves_addThreads.
  - apply preserves_prependComment.
  - apply preserves_appendComment.
  - apply steps_preserves. apply steps_addReplyToComment.
  - apply steps_preserves. apply steps_hideComment.
  - apply preserves_reset.
Qed.

Lemma constructor_wf (fuel : nat) (rootPost : addr) (s0 s : State) :
  constructor fuel rootPost s0 = Ret tt s -> wf s.
Proof.
  unfold constructor.
  rewrite (bind_Ret _ _ _ _ _ (modify_eq _ _)).
  rewrite (bind_Ret _ _ _ _ _ (modify_eq _ _)).
  set (s1 := with_cache None _).
  assert (Hwf : wf s1).
  { split; [constructor|intros k t []|intros a; discriminate]. }
  destruct (posts s1 !! rootPost) as [root|] eqn:Hr;
    [rewrite (bind_Ret _ _ _ _ _ (get_post_Some _ _ _ Hr))
    |rewrite (bind_Dangling _ _ _ (get_post_None _ _ Hr)); discriminate].
  intros H.
  pose proof (preserves_addThreads fuel (Comments root) s1 Hwf) as Hp.
  rewrite H in Hp. exact Hp.
Qed.

Lemma wf_new_post (s : State) (p : Post) :
  wf s -> wf (with_posts (fun ps => ps ++ [p]) s).
Proof.
  intros [Hk Hco Hca]. split; [exact Hk| |exact Hca].
  intros k t Hin. apply key_of_new_post. apply Hco. exact Hin.
Qed.

Lemma reachable_wf (s : State) : reachable s -> wf s.
Proof.
  induction 1 as [fuel root s0 s H|c s s' _ IH H|p s _ IH].
  - eapply constructor_wf; exact H.
  - eapply preserves_final; [apply preserves_run|exact IH|exact H].
  - apply wf_new_post; exact IH.
Qed.

Lemma steps_final {A : Type} (m : M A) (s s' : State) :
  steps frame m -> final (m s) = Some s' -> frame s s'.
Proof.
  intros Hm. specialize (Hm s).
  destruct (m s); simpl; intros [= <-] || discriminate; exact Hm.
Qed.

(** C10.  In every reachable state each entry of the map has the key
    [thread.parent.PostHashHex]; and whatever state [addReplyToComment]
    or [hideComment] leaves, returning or throwing, is coherent too, each
    thread object having the key it had: the parent is only ever replaced
    by a copy with the same [PostHashHex]. *)
Theorem map_keys_coherent (s : State) :
  reachable s ->
  key_coherent s
  /\ (forall tid rp reply s',
        final (addReplyToComment tid rp reply s) = Some s' ->
        key_coherent s'
        /\ forall t k, key_of s t = Some k -> key_of s' t = Some k)
  /\ (forall c pc tid s',
        final (hideComment c pc tid s) = Some s' ->
        key_coherent s'
        /\ forall t k, key_of s t = Some k -> key_of s' t = Some k).
Proof.
  intros Hr. pose proof (reachable_wf s Hr) as Hwf. split; [apply Hwf|].
  split.
  - intros tid rp reply s' H.
    pose proof (steps_final _ _ _ (steps_addReplyToComment tid rp reply) H)
      as Hf.
    split; [apply (frame_wf _ _ Hf Hwf)|apply Hf].
  - intros c pc tid s' H.
    pose proof (steps_final _ _ _ (steps_hideComment c pc tid) H) as Hf.
    split; [apply (frame_wf _ _ Hf Hwf)|apply Hf].
Qed.

Lemma map_keys_coherent_witness :
  key_coherent Ex.s
  /\ (forall tid rp reply s',
        final (addReplyToComment tid rp reply Ex.s) = Some s' ->
        key_coherent s'
        /\ forall t k, key_of Ex.s t = Some k -> key_of s' t = Some k)
  /\ (forall c pc tid s',
        final (hideComment c pc tid Ex.s) = Some s' ->
        key_coherent s'
        /\ forall t k, key_of Ex.s t = Some k -> key_of s' t = Some k).
Proof.
  apply (map_keys_coherent Ex.s).
  apply (reach_new 3 0%nat Ex.s0). reflexivity.
Defined.

(** ** The loop of [prependComment] *)

Lemma key_of_with_threadMap (f : JsMap.t -> JsMap.t) (s : State) (t : addr) :
  key_of (with_threadMap f s) t = key_of s t.
Proof. reflexivity. Qed.

Lemma reregister_Some (thread : addr) (k : string) (s : State) :
  key_of s thread = Some k ->
  reregister thread s = Ret tt (with_threadMap (JsMap.set k thread) s).
Proof.
  unfold key_of, reregister. intros H.
  destruct (threadObjs s !! thread) as [T|] eqn:Ht; [|discriminate].
  destruct (posts s !! parent T) as [p|] eqn:Hp; [|discriminate].
  injection H as <-.
  rewrite (bind_Ret _ _ _ _ _ (get_thread_Some _ _ _ Ht)).
  rewrite (bind_Ret _ _ _ _ _ (get_post_Some _ _ _ Hp)).
  reflexivity.
Qed.

(** Re-registering, in order, entries whose keys are new appends them in
    that order. *)
Lemma forEach_reregister_appends (l : JsMap.t) :
  forall s,
    (forall k t, In (k, t) l -> key_of s t = Some k) ->
    List.NoDup (JsMap.keys (threadMap s ++ l)) ->
    forEach (JsMap.values l) reregister s
    = Ret tt (with_threadMap (fun m => m ++ l) s).
Proof.
  induction l as [|[k t] l IH]; intros s Hkeys Hnodup.
  - simpl. unfold ret, with_threadMap. rewrite app_nil_r.
    f_equal. apply state_eta.
  - cbn [JsMap.values map snd forEach].
    assert (Hk : key_of s t = Some k) by (apply Hkeys; now left).
    rewrite (bind_Ret _ _ _ _ _ (reregister_Some _ _ _ Hk)).
    assert (Habs : ~ In k (JsMap.keys (threadMap s))).
    { unfold JsMap.keys in *. rewrite map_app in Hnodup.
      apply NoDup_ListNoDup, NoDup_app in Hnodup.
      destruct Hnodup as (_ & Hdisj & _). intros Hin.
      apply (Hdisj k); [apply list_elem_of_In; exact Hin|].
      simpl. left. }
    fold (JsMap.values l). rewrite IH.
    + unfold with_threadMap. simpl.
      rewrite (JsMapFacts.set_absent _ _ _ Habs), <- app_assoc.
      reflexivity.
    + intros k' t' Hin. rewrite key_of_with_threadMap.
      apply Hkeys. now right.
    + simpl. rewrite (JsMapFacts.set_absent _ _ _ Habs), <- app_assoc.
      exact Hnodup.
Qed.

(** Re-registering threads that each have a key returns, and leaves the
    objects and the cache alone. *)
Lemma forEach_reregister_returns (l : list addr) :
  forall s,
    Forall (fun t => exists k, key_of s t = Some k) l ->
    exists m', forEach l reregister s
               = Ret tt (with_threadMap (fun _ => m') s).
Proof.
  induction l as [|t l IH]; intros s Hall.
  - exists (threadMap s). simpl. unfold ret. f_equal. apply state_eta.
  - apply Forall_cons in Hall. destruct Hall as [[k Hk] Hall].
    cbn [forEach].
    rewrite (bind_Ret _ _ _ _ _ (reregister_Some _ _ _ Hk)).
    destruct (IH (with_threadMap (JsMap.set k t) s)) as [m' Hm'].
    { exact Hall. }
    exists m'. rewrite Hm'. reflexivity.
Qed.

Lemma prependComment_exact (fuel : nat) (N : addr) (n : Post)
  (ch : list value) (s : State) :
  wf s ->
  posts s !! N = Some n ->
  JsMap.get (PostHashHex n) (threadMap s) = None ->
  flat_children fuel (posts s) N = Some ch ->
  exists ars,
    prependComment fuel N s
    = Ret tt (mkState (posts s) (threadObjs s ++ [mkThread N ch]) ars
                ((PostHashHex n, length (threadObjs s)) :: threadMap s)
                None)
    /\ (forall a l, arrays s !! a = Some l -> ars !! a = Some l).
Proof.
  intros Hwf HN Hkey Hflat.
  assert (Hth : exists a s1,
             threads s = Ret a s1
             /\ arrays s1 !! a = Some (JsMap.values (threadMap s))
             /\ posts s1 = posts s /\ threadObjs s1 = threadObjs s
             /\ (forall a l, arrays s !! a = Some l ->
                             arrays s1 !! a = Some l)).
  { destruct (threadArrayCache s) as [a|] eqn:Hc.
    - exists a, s. rewrite (threads_cached _ _ Hc).
      split; [reflexivity|]. split; [apply (wf_cache _ Hwf); exact Hc|].
      auto.
    - eexists _, _. rewrite (threads_rebuilt _ Hc).
      split; [reflexivity|]. simpl.
      split; [apply lookup_snoc_new|].
      split; [reflexivity|]. split; [reflexivity|].
      intros a l. apply lookup_snoc_old. }
  destruct Hth as (a & s1 & Hthreads & Harr & Hps & Hts & Hars).
  exists (arrays s1). split; [|exact Hars].
  unfold prependComment.
  rewrite (bind_Ret _ _ _ _ _ Hthreads).
  rewrite (bind_Ret _ _ _ _ _ (bust_cache_eq _)).
  rewrite (bind_Ret _ _ _ _ _ (modify_eq _ _)).
  set (s2 := with_threadMap _ _).
  assert (HN2 : posts s2 !! N = Some n) by (subst s2; simpl; congruence).
  rewrite (bind_Ret _ _ _ _ _ (get_post_Some _ _ _ HN2)).
  assert (Hflat2 : flat_children fuel (posts s2) N = Some ch).
  { subst s2. simpl. rewrite Hps. exact Hflat. }
  rewrite (bind_Ret _ _ _ _ _ (flattenThread_Some _ _ _ _ Hflat2)).
  rewrite (bind_Ret _ _ _ _ _ (map_set_eq _ _ _)).
  set (s4 := with_threadMap _ _).
  assert (Harr4 : arrays s4 !! a = Some (JsMap.values (threadMap s)))
    by exact Harr.
  rewrite (bind_Ret _ _ _ _ _ (get_array_Some _ _ _ Harr4)).
  fold reregister.
  rewrite forEach_reregister_appends.
  - subst s4 s2. unfold with_threadMap, with_threadObjs, with_cache.
    simpl. rewrite Hps, Hts. reflexivity.
  - intros k t Hin. subst s4 s2. rewrite key_of_with_threadMap.
    apply key_of_new_thread_old.
    unfold key_of. simpl. rewrite Hps, Hts.
    apply (wf_coherent _ Hwf). exact Hin.
  - subst s4 s2. simpl. constructor; [|apply (wf_keys _ Hwf)].
    apply JsMapFacts.get_None_keys. exact Hkey.
Qed.

(** C8.  In a reachable state, for a post [N] of the store whose id is
    not a key of the map and below which the first-child chains are
    finite: with enough recursion depth [prependComment(N)] returns, and
    the next read of [threads] is an array whose first element is the
    thread [flattenThread(N)] builds (its parent is the object [N]) and
    whose other elements are the threads of the map before the call, in
    the order they had, none of these objects having changed. *)
Theorem prependComment_puts_first (s : State) (N : addr) (n : Post) :
  reachable s ->
  posts s !! N = Some n ->
  JsMap.get (PostHashHex n) (threadMap s) = None ->
  flattenable (posts s) N ->
  exists fuel0 ch,
    forall fuel, (fuel0 <= fuel)%nat ->
      flattenThread fuel N s
      = Ret (length (threadObjs s))
            (with_threadObjs (fun ts => ts ++ [mkThread N ch]) s)
      /\
      exists s1 a s2,
        prependComment fuel N s = Ret tt s1
        /\ threads s1 = Ret a s2
        /\ arrays s2 !! a
           = Some (length (threadObjs s) :: JsMap.values (threadMap s))
        /\ threadObjs s2 !! length (threadObjs s) = Some (mkThread N ch)
        /\ posts s2 !! N = Some n
        /\ (forall t T, threadObjs s !! t = Some T ->
                        threadObjs s2 !! t = Some T)
        /\ posts s2 = posts s.
Proof.
  intros Hr HN Hkey Hfl. pose proof (reachable_wf s Hr) as Hwf.
  destruct (flat_children_terminates _ _ Hfl) as (fuel0 & ch & Hch).
  exists fuel0, ch. intros fuel Hle. specialize (Hch fuel Hle).
  split; [apply flattenThread_Some; exact Hch|].
  destruct (prependComment_exact fuel N n ch s Hwf HN Hkey Hch)
    as (ars & Hpre & Hars).
  eexists _, _, _. split; [exact Hpre|].
  split; [apply threads_rebuilt; reflexivity|]. simpl.
  split; [apply lookup_snoc_new|].
  split; [apply lookup_snoc_new|].
  split; [exact HN|].
  split; [|reflexivity].
  intros t T. apply lookup_snoc_old.
Qed.

Lemma prependComment_puts_first_witness :
  exists fuel0 ch,
    forall fuel, (fuel0 <= fuel)%nat ->
      flattenThread fuel 7%nat Ex.s
      = Ret 1%nat
            (with_threadObjs (fun ts => ts ++ [mkThread 7%nat ch]) Ex.s)
      /\
      exists s1 a s2,
        prependComment fuel 7%nat Ex.s = Ret tt s1
        /\ threads s1 = Ret a s2
        /\ arrays s2 !! a = Some [1%nat; 0%nat]
        /\ threadObjs s2 !! 1%nat = Some (mkThread 7%nat ch)
        /\ posts s2 !! 7%nat = Some Ex.N
        /\ (forall t T, threadObjs Ex.s !! t = Some T ->
                        threadObjs s2 !! t = Some T)
        /\ posts s2 = posts Ex.s.
Proof.
  apply (prependComment_puts_first Ex.s 7%nat Ex.N).
  - apply (reach_new 3 0%nat Ex.s0). reflexivity.
  - reflexivity.
  - reflexivity.
  - exists Ex.N. split; [reflexivity|]. intros arr [= <-].
    apply List.Forall_cons; [|apply List.Forall_nil].
    apply (walk_ends_null _ 5%nat Ex.Q); reflexivity.
Defined.

(** ** Reads of [threads] and the cache *)

Lemma uncached_rebuilds (s : State) :
  threadArrayCache s = None -> next_read_rebuilds s.
Proof.
  intros H. eexists. rewrite (threads_rebuilt _ H).
  split; [reflexivity|]. split.
  - apply lookup_ge_None. lia.
  - simpl. apply lookup_snoc_new.
Qed.

Lemma appendComment_Some (fuel : nat) (c : addr) (C : Post)
  (ch : list value) (s : State) :
  posts s !! c = Some C ->
  flat_children fuel (posts s) c = Some ch ->
  appendComment fuel c s
  = Ret tt (mkState (posts s) (threadObjs s ++ [mkThread c ch]) (arrays s)
              (JsMap.set (PostHashHex C) (length (threadObjs s))
                 (threadMap s))
              None).
Proof.
  intros Hc Hflat. unfold appendComment.
  rewrite (bind_Ret _ _ _ _ _ (bust_cache_eq _)).
  assert (Hc1 : posts (with_cache None s) !! c = Some C) by exact Hc.
  rewrite (bind_Ret _ _ _ _ _ (get_post_Some _ _ _ Hc1)).
  assert (Hflat1 : flat_children fuel (posts (with_cache None s)) c
                   = Some ch) by exact Hflat.
  rewrite (bind_Ret _ _ _ _ _ (flattenThread_Some _ _ _ _ Hflat1)).
  reflexivity.
Qed.

Lemma prependComment_returns (fuel : nat) (c : addr) (C : Post)
  (ch : list value) (s : State) :
  wf s ->
  posts s !! c = Some C ->
  flat_children fuel (posts s) c = Some ch ->
  exists s', prependComment fuel c s = Ret tt s'
             /\ threadArrayCache s' = None.
Proof.
  intros Hwf HN Hflat.
  assert (Hth : exists a s1,
             threads s = Ret a s1
             /\ arrays s1 !! a = Some (JsMap.values (threadMap s))
             /\ posts s1 = posts s /\ threadObjs s1 = threadObjs s).
  { destruct (threadArrayCache s) as [a|] eqn:Hc.
    - exists a, s. rewrite (threads_cached _ _ Hc).
      split; [reflexivity|]. split; [apply (wf_cache _ Hwf); exact Hc|].
      auto.
    - eexists _, _. rewrite (threads_rebuilt _ Hc).
      split; [reflexivity|]. simpl.
      split; [apply lookup_snoc_new|]. auto. }
  destruct Hth as (a & s1 & Hthreads & Harr & Hps & Hts).
  unfold prependComment.
  rewrite (bind_Ret _ _ _ _ _ Hthreads).
  rewrite (bind_Ret _ _ _ _ _ (bust_cache_eq _)).
  rewrite (bind_Ret _ _ _ _ _ (modify_eq _ _)).
  set (s2 := with_threadMap _ _).
  assert (HN2 : posts s2 !! c = Some C) by (subst s2; simpl; congruence).
  rewrite (bind_Ret _ _ _ _ _ (get_post_Some _ _ _ HN2)).
  assert (Hflat2 : flat_children fuel (posts s2) c = Some ch).
  { subst s2. simpl. rewrite Hps. exact Hflat. }
  rewrite (bind_Ret _ _ _ _ _ (flattenThread_Some _ _ _ _ Hflat2)).
  rewrite (bind_Ret _ _ _ _ _ (map_set_eq _ _ _)).
  set (s4 := with_threadMap _ _).
  assert (Harr4 : arrays s4 !! a = Some (JsMap.values (threadMap s)))
    by exact Harr.
  rewrite (bind_Ret _ _ _ _ _ (get_array_Some _ _ _ Harr4)).
  fold reregister.
  destruct (forEach_reregister_returns (JsMap.values (threadMap s)) s4)
    as [m' Hm'].
  { apply Forall_forall. intros t Hin. apply list_elem_of_In in Hin.
    unfold JsMap.values in Hin. apply in_map_iff in Hin.
    destruct Hin as ([k t'] & <- & Hin). exists k.
    subst s4 s2. rewrite key_of_with_threadMap.
    apply key_of_new_thread_old. unfold key_of. simpl. rewrite Hps, Hts.
    apply (wf_coherent _ Hwf). exact Hin. }
  rewrite Hm'. eexists. split; reflexivity.
Qed.

(** C2, amended.  Two reads of [threads] in a row return the same array
    reference.  [removeThread], [reset], [appendComment] and
    [prependComment] return with the cache invalidated, so that the next
    read builds a new array of the values of the map.
    [addReplyToComment] and [hideComment] touch neither the cache, nor
    the arrays, nor the map: a read after them returns the reference the
    read before them returned, an array of the same [Thread] objects,
    which they have updated in place. *)
Theorem cache_discipline :
  (forall s, exists a s1, threads s = Ret a s1 /\ threads s1 = Ret a s1)
  /\ (forall k s, invalidates (removeThread k) s)
  /\ (forall s, invalidates reset s)
  /\ (forall fuel c C ch s,
        posts s !! c = Some C ->
        flat_children fuel (posts s) c = Some ch ->
        invalidates (appendComment fuel c) s)
  /\ (forall fuel c C ch s,
        reachable s ->
        posts s !! c = Some C ->
        flat_children fuel (posts s) c = Some ch ->
        invalidates (prependComment fuel c) s)
  /\ (forall tid rp reply s a s1 s2,
        threads s = Ret a s1 ->
        final (addReplyToComment tid rp reply s1) = Some s2 ->
        threads s2 = Ret a s2
        /\ arrays s2 = arrays s1 /\ threadMap s2 = threadMap s1)
  /\ (forall c pc tid s a s1 s2,
        threads s = Ret a s1 ->
        final (hideComment c pc tid s1) = Some s2 ->
        threads s2 = Ret a s2
        /\ arrays s2 = arrays s1 /\ threadMap s2 = threadMap s1).
Proof.
  assert (Hread : forall s a s1,
             threads s = Ret a s1 -> threadArrayCache s1 = Some a).
  { intros s a s1. destruct (threadArrayCache s) as [a0|] eqn:Hc.
    - rewrite (threads_cached _ _ Hc). intros [= <- <-]. exact Hc.
    - rewrite (threads_rebuilt _ Hc). intros [= <- <-]. reflexivity. }
  assert (Hkeep : forall (m : M unit) s a s1 s2,
             steps frame m ->
             threads s = Ret a s1 ->
             final (m s1) = Some s2 ->
             threads s2 = Ret a s2
             /\ arrays s2 = arrays s1 /\ threadMap s2 = threadMap s1).
  { intros m s a s1 s2 Hm Hth Hfin.
    pose proof (steps_final _ _ _ Hm Hfin) as [_ Hmap Harr Hcache].
    split; [|split; assumption].
    apply threads_cached. rewrite Hcache. eapply Hread; exact Hth. }
  split; [|split; [|split; [|split; [|split; [|split]]]]].
  - intros s. destruct (threadArrayCache s) as [a|] eqn:Hc.
    + exists a, s. rewrite (threads_cached _ _ Hc). auto.
    + eexists _, _. rewrite (threads_rebuilt _ Hc).
      split; [reflexivity|]. apply threads_cached. reflexivity.
  - intros k s. eexists. unfold removeThread.
    rewrite (bind_Ret _ _ _ _ _ (bust_cache_eq _)).
    split; [reflexivity|]. split; [reflexivity|].
    apply uncached_rebuilds. reflexivity.
  - intros s. eexists. split; [reflexivity|]. split; [reflexivity|].
    apply uncached_rebuilds. reflexivity.
  - intros fuel c C ch s Hc Hflat. eexists.
    rewrite (appendComment_Some _ _ _ _ _ Hc Hflat).
    split; [reflexivity|]. split; [reflexivity|].
    apply uncached_rebuilds. reflexivity.
  - intros fuel c C ch s Hr Hc Hflat.
    destruct (prependComment_returns fuel c C ch s (reachable_wf _ Hr)
                Hc Hflat) as (s' & Hs' & Hnone).
    exists s'. split; [exact Hs'|]. split; [exact Hnone|].
    apply uncached_rebuilds. exact Hnone.
  - intros tid rp reply s a s1 s2. apply Hkeep.
    apply steps_addReplyToComment.
  - intros c pc tid s a s1 s2. apply Hkeep. apply steps_hideComment.
Qed.

Lemma cache_discipline_witness :
  invalidates (appendComment 3 7%nat) Ex.s
  /\ invalidates (prependComment 3 7%nat) Ex.s
  /\ (threads Ex.s_replied = Ret 0%nat Ex.s_replied
      /\ arrays Ex.s_replied = arrays Ex.s_read
      /\ threadMap Ex.s_replied = threadMap Ex.s_read)
  /\ (threads (hidden Ex.s_read 4%nat Ex.R)
      = Ret 0%nat (hidden Ex.s_read 4%nat Ex.R)
      /\ arrays (hidden Ex.s_read 4%nat Ex.R) = arrays Ex.s_read
      /\ threadMap (hidden Ex.s_read 4%nat Ex.R) = threadMap Ex.s_read).
Proof.
  destruct cache_discipline as (_ & _ & _ & Happ & Hpre & Hadd & Hhide).
  split; [|split; [|split]].
  - apply (Happ 3%nat 7%nat Ex.N [ref 5%nat] Ex.s); reflexivity.
  - apply (Hpre 3%nat 7%nat Ex.N [ref 5%nat] Ex.s);
      [apply (reach_new 3 0%nat Ex.s0)|..]; reflexivity.
  - apply (Hadd "T" 3%nat 4%nat Ex.s 0%nat Ex.s_read Ex.s_replied);
      reflexivity.
  - apply (Hhide 4%nat 5%nat "Q" Ex.s 0%nat Ex.s_read
             (hidden Ex.s_read 4%nat Ex.R)); reflexivity.
Defined.

(** C2 as stated fails for [addReplyToComment]: after a read that
    returned the array 0, a reply to the last child leaves the cache
    field at that array, and the next read returns it again. *)
Lemma addReply_keeps_cached_array :
  threads Ex.s = Ret 0%nat Ex.s_read
  /\ addReplyToComment "T" 3%nat 4%nat Ex.s_read = Ret tt Ex.s_replied
  /\ threadArrayCache Ex.s_replied = Some 0%nat
  /\ threads Ex.s_replied = Ret 0%nat Ex.s_replied
  /\ ~ invalidates (addReplyToComment "T" 3%nat 4%nat) Ex.s_read.
Proof.
  repeat split.
  intros (s' & Hs' & Hnone & _).
  change (addReplyToComment "T" 3%nat 4%nat Ex.s_read)
    with (Ret tt Ex.s_replied) in Hs'.
  injection Hs' as <-. discriminate Hnone.
Qed.

(** ** More on the flattener *)

(** X1.  A post whose [Comments] is [null] or an empty array flattens,
    whatever the recursion bound, to a thread with that post as parent
    and no children. *)
Theorem flattenThread_no_comments (fuel : nat) (p : addr) (P : Post)
  (s : State) :
  posts s !! p = Some P ->
  Comments P = None \/ Comments P = Some [] ->
  flattenThread fuel p s
  = Ret (length (threadObjs s))
        (with_threadObjs (fun ts => ts ++ [mkThread p []]) s).
Proof.
  intros Hp Hc. apply flattenThread_Some. unfold flat_children.
  rewrite Hp. destruct Hc as [-> | ->]; reflexivity.
Qed.

(** X2.  [flattenThread] never throws, and when it returns it has done
    nothing but allocate one [Thread] object, whose reference it returns
    and whose parent is its argument: the posts, the arrays, the map and
    the cache are as they were. *)
Theorem flattenThread_allocates_one_thread (fuel : nat) (p : addr)
  (s : State) :
  match flattenThread fuel p s with
  | Ret t s' =>
      t = length (threadObjs s)
      /\ (exists ch, threadObjs s' = threadObjs s ++ [mkThread p ch])
      /\ posts s' = posts s
      /\ arrays s' = arrays s
      /\ threadMap s' = threadMap s
      /\ threadArrayCache s' = threadArrayCache s
  | Throw _ => False
  | OutOfFuel | Dangling => True
  end.
Proof.
  pose proof (flattenThread_spec fuel p s) as H.
  destruct (flattenThread fuel p s) as [t s'| | |]; auto.
  destruct H as (ch & _ & -> & ->). split; [reflexivity|].
  split; [exists ch; reflexivity|]. repeat split.
Qed.

(** X3.  Below the top level only the first reply is followed: when [A],
    the one reply of [P], has the replies [b :: rest] and [B] has none,
    the children are [A] and [B], whatever [rest] is. *)
Theorem flattenThread_first_child_only (fuel : nat) (p a b : addr)
  (P A B : Post) (rest : list addr) (s : State) :
  posts s !! p = Some P -> Comments P = Some [a] ->
  posts s !! a = Some A -> Comments A = Some (b :: rest) ->
  posts s !! b = Some B -> Comments B = None ->
  (2 <= fuel)%nat ->
  flattenThread fuel p s
  = Ret (length (threadObjs s))
        (with_threadObjs (fun ts => ts ++ [mkThread p [ref a; ref b]]) s).
Proof.
  intros Hp HP Ha HA Hb HB Hfuel.
  apply flattenThread_Some. unfold flat_children. rewrite Hp, HP.
  destruct (le_S_exists _ _ Hfuel) as [f1 ->].
  destruct (le_S_exists 0 f1 ltac:(lia)) as [f2 ->].
  simpl. rewrite Ha, HA. simpl. rewrite Hb, HB. reflexivity.
Qed.

Lemma chains_leaves (fuel : nat) (ps : list Post) (arr : list addr) :
  Forall (fun a => exists p, ps !! a = Some p /\ Comments p = None) arr ->
  chains (S fuel) ps arr = Some (map ref arr).
Proof.
  induction 1 as [|a arr (p & Hp & Hc) _ IH]; [reflexivity|].
  cbn [chains map]. rewrite IH. simpl. rewrite Hp, Hc. reflexivity.
Qed.

(** X4.  At the top level every reply is kept, in order: when no reply of
    [P] has replies of its own, the children are the replies of [P]. *)
Theorem flattenThread_keeps_every_reply (fuel : nat) (p : addr) (P : Post)
  (arr : list addr) (s : State) :
  posts s !! p = Some P -> Comments P = Some arr ->
  Forall (fun a => exists A, posts s !! a = Some A /\ Comments A = None)
    arr ->
  (1 <= fuel)%nat ->
  flattenThread fuel p s
  = Ret (length (threadObjs s))
        (with_threadObjs (fun ts => ts ++ [mkThread p (map ref arr)]) s).
Proof.
  intros Hp HP Hall Hfuel. apply flattenThread_Some.
  unfold flat_children. rewrite Hp, HP.
  destruct (le_S_exists _ _ Hfuel) as [f1 ->].
  apply chains_leaves; exact Hall.
Qed.

(** X5.  For any callback that returns and leaves the posts alone,
    [walkSubcomments] runs the callback once on each value of the
    first-child chain, in order, and does nothing else. *)
Theorem walkSubcomments_calls_back_along_chain (fuel : nat)
  (cb : value -> M unit) :
  (forall w s1, exists s2, cb w s1 = Ret tt s2 /\ posts s2 = posts s1) ->
  forall (v : value) (s : State) (ch : list value),
    chain fuel (posts s) v = Some ch ->
    walkSubcomments fuel v cb s = forEach ch cb s.
Proof.
  intros Hcb. induction fuel as [|fuel IH]; intros v s ch Hch;
    [discriminate|].
  cbn [walkSubcomments]. destruct (Hcb v s) as (s2 & Hs2 & Hps).
  rewrite (bind_Ret _ _ _ _ _ Hs2).
  simpl in Hch. destruct v as [|a].
  - injection Hch as <-. cbn [forEach].
    rewrite (bind_Ret _ _ _ _ _ Hs2). reflexivity.
  - destruct (posts s !! a) as [p|] eqn:Hp; [|discriminate].
    assert (Hp2 : posts s2 !! a = Some p) by (rewrite Hps; exact Hp).
    rewrite (bind_Ret _ _ _ _ _ (get_post_Some _ _ _ Hp2)).
    destruct (Comments p) as [arr|].
    + destruct (chain fuel (posts s) (JsArray.first arr)) as [ch'|] eqn:E;
        [|discriminate].
      injection Hch as <-. cbn [forEach].
      rewrite (bind_Ret _ _ _ _ _ Hs2). apply IH. rewrite Hps. exact E.
    + injection Hch as <-. cbn [forEach].
      rewrite (bind_Ret _ _ _ _ _ Hs2). reflexivity.
Qed.

(** X6.  On a post below which the first-child chains are finite,
    [flattenThread] returns, with one and the same thread, at every
    recursion bound from some bound on. *)
Theorem flattenThread_terminates (p : addr) (s : State) :
  flattenable (posts s) p ->
  exists fuel0 ch,
    forall fuel, (fuel0 <= fuel)%nat ->
      flattenThread fuel p s
      = Ret (length (threadObjs s))
            (with_threadObjs (fun ts => ts ++ [mkThread p ch]) s).
Proof.
  intros H. destruct (flat_children_terminates _ _ H) as (fuel0 & ch & Hch).
  exists fuel0, ch. intros fuel Hle. apply flattenThread_Some. auto.
Qed.

Lemma walk_cycle (a : addr) (A : Post) (rest : list addr) (t : addr)
  (fuel : nat) :
  Comments A = Some (a :: rest) ->
  forall (s : State) (T : Thread),
    posts s !! a = Some A -> threadObjs s !! t = Some T ->
    walkSubcomments fuel (ref a) (push_child t) s = OutOfFuel.
Proof.
  intros HA. induction fuel as [|fuel IH]; intros s T Ha Ht; [reflexivity|].
  cbn [walkSubcomments].
  rewrite (bind_Ret _ _ _ _ _ (push_child_Some _ _ _ _ Ht)).
  set (s1 := with_threadObjs _ s).
  assert (Ha1 : posts s1 !! a = Some A) by exact Ha.
  rewrite (bind_Ret _ _ _ _ _ (get_post_Some _ _ _ Ha1)). rewrite HA.
  cbn [JsArray.first]. eapply IH; [exact Ha1|].
  subst s1. simpl. eapply lookup_insert_same; exact Ht.
Qed.

(** X7.  When the first reply of [P] is a post that is its own first
    reply, [flattenThread(P)] returns at no recursion bound. *)
Theorem flattenThread_diverges_on_cycle (fuel : nat) (p a : addr)
  (P A : Post) (others rest : list addr) (s : State) :
  posts s !! p = Some P -> Comments P = Some (a :: others) ->
  posts s !! a = Some A -> Comments A = Some (a :: rest) ->
  flattenThread fuel p s = OutOfFuel.
Proof.
  intros Hp HP Ha HA. unfold flattenThread.
  unfold bind at 1. unfold new_thread.
  set (s1 := with_threadObjs _ s).
  assert (Hp1 : posts s1 !! p = Some P) by exact Hp.
  rewrite (bind_Ret _ _ _ _ _ (get_post_Some _ _ _ Hp1)). rewrite HP.
  cbn [forEach]. unfold bind.
  erewrite (walk_cycle a A rest _ fuel HA s1); [reflexivity|exact Ha|].
  subst s1. simpl. apply lookup_snoc_new.
Qed.

(** ** Lookups in the ordered map *)

Lemma get_set_same (k : string) (v : addr) (m : JsMap.t) :
  JsMap.get k (JsMap.set k v m) = Some v.
Proof.
  induction m as [|[k' v'] m IH]; simpl.
  - rewrite String.eqb_refl. reflexivity.
  - destruct (String.eqb_spec k' k) as [->|Hne]; simpl.
    + rewrite String.eqb_refl. reflexivity.
    + destruct (String.eqb_spec k' k) as [E|_]; [contradiction|exact IH].
Qed.

Lemma get_set_other (k k0 : string) (v : addr) (m : JsMap.t) :
  k0 <> k -> JsMap.get k0 (JsMap.set k v m) = JsMap.get k0 m.
Proof.
  intros Hne. induction m as [|[k' v'] m IH]; simpl.
  - destruct (String.eqb_spec k k0) as [E|_]; [congruence|reflexivity].
  - destruct (String.eqb_spec k' k) as [->|Hne']; simpl.
    + destruct (String.eqb_spec k k0) as [E|_]; [congruence|reflexivity].
    + rewrite IH. reflexivity.
Qed.

Lemma get_delete_other (k k0 : string) (m : JsMap.t) :
  k0 <> k -> JsMap.get k0 (JsMap.delete k m) = JsMap.get k0 m.
Proof.
  intros Hne. induction m as [|[k' v'] m IH]; simpl; [reflexivity|].
  destruct (String.eqb_spec k' k) as [->|Hne']; simpl.
  - destruct (String.eqb_spec k k0) as [E|_]; [congruence|reflexivity].
  - rewrite IH. reflexivity.
Qed.

Lemma get_delete_same (k : string) (m : JsMap.t) :
  List.NoDup (JsMap.keys m) -> JsMap.get k (JsMap.delete k m) = None.
Proof.
  induction m as [|[k' v'] m IH]; simpl; intros H; [reflexivity|].
  inversion H as [|? ? Hnotin Hm]; subst.
  destruct (String.eqb_spec k' k) as [->|Hne]; simpl.
  - apply JsMapFacts.get_None_keys. exact Hnotin.
  - destruct (String.eqb_spec k' k) as [E|_]; [contradiction|auto].
Qed.

Lemma delete_absent (k : string) (m : JsMap.t) :
  JsMap.get k m = None -> JsMap.delete k m = m.
Proof.
  induction m as [|[k' v'] m IH]; simpl; [reflexivity|].
  destruct (String.eqb_spec k' k) as [->|Hne]; [discriminate|].
  intros H. rewrite IH by exact H. reflexivity.
Qed.

(** The entries that stay keep their order. *)
Lemma delete_split (k : string) (t : addr) (m : JsMap.t) :
  JsMap.get k m = Some t ->
  exists m1 m2, m = m1 ++ (k, t) :: m2 /\ JsMap.delete k m = m1 ++ m2.
Proof.
  induction m as [|[k' v'] m IH]; simpl; [discriminate|].
  destruct (String.eqb_spec k' k) as [->|Hne].
  - intros [= ->]. exists [], m. split; reflexivity.
  - intros H. destruct (IH H) as (m1 & m2 & -> & Hd).
    exists ((k', v') :: m1), m2. simpl. rewrite Hd. split; reflexivity.
Qed.

(** ** Registering and removing threads *)

(** X8.  After [appendComment(c)], [getThread(c.PostHashHex)] is the new
    thread, whose parent is [c]; the lookups of the other keys are as
    before; a key that was present keeps its place in the order and a new
    key comes last; the existing objects are untouched and the cache is
    invalid. *)
Theorem appendComment_registers (fuel : nat) (c : addr) (C : Post)
  (ch : list value) (s : State) :
  posts s !! c = Some C ->
  flat_children fuel (posts s) c = Some ch ->
  exists s',
    appendComment fuel c s = Ret tt s'
    /\ getThread (PostHashHex C) s' = Ret (Some (length (threadObjs s))) s'
    /\ threadObjs s' !! length (threadObjs s) = Some (mkThread c ch)
    /\ (forall k, k <> PostHashHex C ->
                  JsMap.get k (threadMap s') = JsMap.get k (threadMap s))
    /\ JsMap.keys (threadMap s')
       = match JsMap.get (PostHashHex C) (threadMap s) with
         | Some _ => JsMap.keys (threadMap s)
         | None => JsMap.keys (threadMap s) ++ [PostHashHex C]
         end
    /\ (forall t T, threadObjs s !! t = Some T ->
                    threadObjs s' !! t = Some T)
    /\ posts s' = posts s
    /\ threadArrayCache s' = None.
Proof.
  intros Hc Hflat. eexists.
  rewrite (appendComment_Some _ _ _ _ _ Hc Hflat).
  split; [reflexivity|]. unfold getThread, gets. simpl.
  split; [rewrite get_set_same; reflexivity|].
  split; [apply lookup_snoc_new|].
  split; [intros k Hk; apply get_set_other; exact Hk|].
  split; [apply JsMapFacts.keys_set|].
  split; [intros t T; apply lookup_snoc_old|].
  split; reflexivity.
Qed.

(** X9.  After [removeThread(k)], [getThread(k)] is [undefined] and the
    other lookups are as before; an absent key leaves the map as it was,
    a present one is taken out with the order of the others kept; the
    [Thread] object itself is not touched.  (The keys of a [Map] are
    distinct.) *)
Theorem removeThread_forgets (k : string) (s : State) :
  List.NoDup (JsMap.keys (threadMap s)) ->
  exists s',
    removeThread k s = Ret tt s'
    /\ getThread k s' = Ret None s'
    /\ (forall k0, k0 <> k ->
                   JsMap.get k0 (threadMap s') = JsMap.get k0 (threadMap s))
    /\ (JsMap.get k (threadMap s) = None -> threadMap s' = threadMap s)
    /\ (forall t, JsMap.get k (threadMap s) = Some t ->
          exists m1 m2, threadMap s = m1 ++ (k, t) :: m2
                        /\ threadMap s' = m1 ++ m2)
    /\ threadObjs s' = threadObjs s
    /\ posts s' = posts s
    /\ threadArrayCache s' = None.
Proof.
  intros Hnd. eexists. unfold removeThread.
  rewrite (bind_Ret _ _ _ _ _ (bust_cache_eq _)).
  split; [reflexivity|]. unfold getThread, gets. simpl.
  split; [rewrite get_delete_same by exact Hnd; reflexivity|].
  split; [intros k0 Hk0; apply get_delete_other; exact Hk0|].
  split; [apply delete_absent|].
  split; [intros t Ht; apply delete_split; exact Ht|].
  repeat split.
Qed.

(** X10.  In every reachable state a read of [threads] returns an array
    that lists the values of the map, in its order and of length
    [threadCount], be it the cached array or a new one; the read changes
    neither the map nor any object. *)
Theorem threads_lists_the_map (s : State) :
  reachable s ->
  exists a s',
    threads s = Ret a s'
    /\ arrays s' !! a = Some (JsMap.values (threadMap s))
    /\ threadCount s' = Ret (length (JsMap.values (threadMap s))) s'
    /\ threadMap s' = threadMap s
    /\ threadObjs s' = threadObjs s
    /\ posts s' = posts s.
Proof.
  intros Hr. pose proof (reachable_wf s Hr) as Hwf.
  destruct (threadArrayCache s) as [a|] eqn:Hc.
  - exists a, s. rewrite (threads_cached _ _ Hc).
    split; [reflexivity|]. split; [apply (wf_cache _ Hwf); exact Hc|].
    unfold threadCount, gets, JsMap.size, JsMap.values.
    rewrite length_map. repeat split.
  - eexists _, _. rewrite (threads_rebuilt _ Hc).
    split; [reflexivity|]. simpl. split; [apply lookup_snoc_new|].
    unfold threadCount, gets, JsMap.size, JsMap.values. simpl.
    rewrite length_map. repeat split.
Qed.

Theorem reset_empties (s : State) :
  exists s1 s2,
    reset s = Ret tt s1
    /\ threadCount s1 = Ret 0%nat s1
    /\ (forall k, getThread k s1 = Ret None s1)
    /\ threads s1 = Ret (length (arrays s)) s2
    /\ arrays s2 !! length (arrays s) = Some []
    /\ arrays s !! length (arrays s) = None
    /\ posts s1 = posts s
    /\ threadObjs s1 = threadObjs s.
Proof.
  eexists _, _. split; [reflexivity|]. split; [reflexivity|].
  split; [reflexivity|]. split; [reflexivity|]. simpl.
  split; [apply lookup_snoc_new|].
  split; [apply lookup_ge_None; lia|]. split; reflexivity.
Qed.

(** ** Building the manager *)


Lemma forEach_appendComment (fuel : nat) (rs : list Reply) :
  forall s,
    threadArrayCache s = None ->
    Forall (reply_ok fuel (posts s)) rs ->
    List.NoDup (JsMap.keys (threadMap s) ++ map reply_id rs) ->
    forEach (map reply_addr rs) (appendComment fuel) s
    = Ret tt (mkState (posts s) (threadObjs s ++ map reply_thread rs)
                (arrays s)
                (threadMap s
                 ++ combine (map reply_id rs)
                      (seq (length (threadObjs s)) (length rs)))
                None).
Proof.
  induction rs as [|r rs IH]; intros s Hnone Hall Hnd.
  - simpl. unfold ret. rewrite !app_nil_r, <- Hnone. f_equal.
    apply state_eta.
  - apply Forall_cons in Hall. destruct Hall as [[Hr Hch] Hall].
    cbn [map forEach].
    rewrite (bind_Ret _ _ _ _ _ (appendComment_Some _ _ _ _ _ Hr Hch)).
    assert (Habs : ~ In (reply_id r) (JsMap.keys (threadMap s))).
    { simpl in Hnd. apply NoDup_ListNoDup, NoDup_app in Hnd.
      destruct Hnd as (_ & Hdisj & _). intros Hin.
      apply (Hdisj (reply_id r)); [apply list_elem_of_In; exact Hin|].
      left. }
    fold (reply_id r). rewrite (JsMapFacts.set_absent _ _ _ Habs).
    rewrite IH.
    + simpl. rewrite length_app, <- !app_assoc. simpl.
      replace (length (threadObjs s) + 1)%nat
        with (S (length (threadObjs s))) by lia.
      reflexivity.
    + reflexivity.
    + exact Hall.
    + simpl. unfold JsMap.keys in *. rewrite map_app, <- app_assoc.
      exact Hnd.
Qed.

(** X11.  A root whose [Comments] is [null] gives an empty manager.  A root
    whose replies have distinct ids gives one thread per reply, registered
    under the id of the reply, in the order of the replies, so that
    [threadCount] is the number of replies. *)
Theorem constructor_registers_replies (fuel : nat) (rootPost : addr)
  (Root : Post) (s0 : State) :
  posts s0 !! rootPost = Some Root ->
  (Comments Root = None ->
   constructor fuel rootPost s0
   = Ret tt (mkState (posts s0) (threadObjs s0) (arrays s0) [] None))
  /\
  (forall rs : list Reply,
     Comments Root = Some (map reply_addr rs) ->
     Forall (reply_ok fuel (posts s0)) rs ->
     List.NoDup (map reply_id rs) ->
     exists s,
       constructor fuel rootPost s0 = Ret tt s
       /\ s = mkState (posts s0) (threadObjs s0 ++ map reply_thread rs)
                (arrays s0)
                (combine (map reply_id rs)
                   (seq (length (threadObjs s0)) (length rs)))
                None
       /\ threadCount s = Ret (length rs) s).
Proof.
  intros Hroot.
  assert (Hrun : constructor fuel rootPost s0
                 = addThreads fuel (Comments Root)
                     (mkState (posts s0) (threadObjs s0) (arrays s0) []
                        None)).
  { unfold constructor.
    rewrite (bind_Ret _ _ _ _ _ (modify_eq _ _)).
    rewrite (bind_Ret _ _ _ _ _ (modify_eq _ _)).
    erewrite bind_Ret by (apply get_post_Some; exact Hroot). reflexivity. }
  split.
  - intros Hnull. rewrite Hrun, Hnull. reflexivity.
  - intros rs Hc Hall Hnd. eexists. rewrite Hrun, Hc. cbn [addThreads].
    rewrite forEach_appendComment by (try reflexivity; assumption).
    split; [reflexivity|]. split; [reflexivity|].
    unfold threadCount, gets, JsMap.size. simpl.
    rewrite length_combine, length_map, length_seq, Nat.min_id.
    reflexivity.
Qed.

(** ** Prepending a post that is registered already *)

Lemma forEach_app {A : Type} (f : A -> M unit) (l1 l2 : list A)
  (s s1 : State) :
  forEach l1 f s = Ret tt s1 ->
  forEach (l1 ++ l2) f s = forEach l2 f s1.
Proof.
  revert s. induction l1 as [|x l1 IH]; intros s; simpl.
  - intros [= ->]. reflexivity.
  - unfold bind. destruct (f x s) as [[] s'| | |]; try discriminate.
    apply IH.
Qed.

(** X12.  [prependComment(N)] with an id that is registered already moves
    the registered entry to the front and keeps its [Thread] object: the
    thread flattened anew from [N] is allocated but not stored in the
    map, and the number of entries does not change. *)
Theorem prependComment_registered_moves_to_front (fuel : nat) (N : addr)
  (n : Post) (ch : list value) (m1 m2 : JsMap.t) (told : addr)
  (s : State) :
  reachable s ->
  posts s !! N = Some n ->
  threadMap s = m1 ++ (PostHashHex n, told) :: m2 ->
  flat_children fuel (posts s) N = Some ch ->
  exists s',
    prependComment fuel N s = Ret tt s'
    /\ threadMap s' = (PostHashHex n, told) :: m1 ++ m2
    /\ threadObjs s' = threadObjs s ++ [mkThread N ch]
    /\ posts s' = posts s
    /\ threadArrayCache s' = None.
Proof.
  intros Hr HN Hmap Hflat. pose proof (reachable_wf s Hr) as Hwf.
  assert (Hth : exists a s1,
             threads s = Ret a s1
             /\ arrays s1 !! a = Some (JsMap.values (threadMap s))
             /\ posts s1 = posts s /\ threadObjs s1 = threadObjs s).
  { destruct (threadArrayCache s) as [a|] eqn:Hc.
    - exists a, s. rewrite (threads_cached _ _ Hc).
      split; [reflexivity|]. split; [apply (wf_cache _ Hwf); exact Hc|].
      auto.
    - eexists _, _. rewrite (threads_rebuilt _ Hc).
      split; [reflexivity|]. simpl.
      split; [apply lookup_snoc_new|]. auto. }
  destruct Hth as (a & s1 & Hthreads & Harr & Hps & Hts).
  pose proof (wf_keys _ Hwf) as Hnd. rewrite Hmap in Hnd.
  unfold JsMap.keys in Hnd. rewrite map_app in Hnd. simpl in Hnd.
  apply NoDup_ListNoDup, NoDup_app in Hnd.
  destruct Hnd as (Hnd1 & Hdisj & Hnd2).
  apply NoDup_cons in Hnd2. destruct Hnd2 as [Hk2 Hnd2].
  unfold prependComment.
  rewrite (bind_Ret _ _ _ _ _ Hthreads).
  rewrite (bind_Ret _ _ _ _ _ (bust_cache_eq _)).
  rewrite (bind_Ret _ _ _ _ _ (modify_eq _ _)).
  set (s2 := with_threadMap _ _).
  assert (HN2 : posts s2 !! N = Some n) by (subst s2; simpl; congruence).
  rewrite (bind_Ret _ _ _ _ _ (get_post_Some _ _ _ HN2)).
  assert (Hflat2 : flat_children fuel (posts s2) N = Some ch).
  { subst s2. simpl. rewrite Hps. exact Hflat. }
  rewrite (bind_Ret _ _ _ _ _ (flattenThread_Some _ _ _ _ Hflat2)).
  rewrite (bind_Ret _ _ _ _ _ (map_set_eq _ _ _)).
  set (s4 := with_threadMap _ _).
  assert (Harr4 : arrays s4 !! a = Some (JsMap.values (threadMap s)))
    by exact Harr.
  rewrite (bind_Ret _ _ _ _ _ (get_array_Some _ _ _ Harr4)).
  fold reregister.
  assert (Hkey : forall k t, In (k, t) (threadMap s) ->
                             key_of s4 t = Some k).
  { intros k t Hin. subst s4 s2. rewrite key_of_with_threadMap.
    apply key_of_new_thread_old. unfold key_of. simpl. rewrite Hps, Hts.
    apply (wf_coherent _ Hwf). exact Hin. }
  rewrite Hmap in Hkey |- *.
  unfold JsMap.values. rewrite map_app. cbn [map snd].
  fold (JsMap.values m1) (JsMap.values m2).
  erewrite forEach_app; cycle 1.
  { apply forEach_reregister_appends.
    - intros k t Hin. apply Hkey. apply in_or_app. now left.
    - subst s4 s2. simpl. constructor; [|apply NoDup_ListNoDup; exact Hnd1].
      intros Hin. apply (Hdisj (PostHashHex n)).
      + apply list_elem_of_In. exact Hin.
      + left. }
  cbn [forEach].
  erewrite bind_Ret; cycle 1.
  { apply reregister_Some.
    rewrite key_of_with_threadMap. apply Hkey.
    apply in_or_app. right. now left. }
  set (s6 := with_threadMap _ _).
  rewrite (forEach_reregister_appends m2 s6).
  - eexists. split; [reflexivity|]. subst s6 s4 s2. simpl.
    rewrite String.eqb_refl, Hps, Hts. simpl. repeat split.
  - intros k t Hin. subst s6. rewrite !key_of_with_threadMap.
    apply Hkey. apply in_or_app. right. now right.
  - subst s6 s4 s2. simpl. rewrite String.eqb_refl. simpl.
    unfold JsMap.keys. rewrite !map_app.
    constructor.
    + intros Hin. apply in_app_or in Hin. destruct Hin as [Hin|Hin].
      * apply (Hdisj (PostHashHex n));
          [apply list_elem_of_In; exact Hin|left].
      * apply Hk2. apply list_elem_of_In. exact Hin.
    + apply NoDup_ListNoDup, NoDup_app. split; [exact Hnd1|].
      split; [|exact Hnd2].
      intros x Hx Hx'. apply (Hdisj x Hx). right. exact Hx'.
Qed.

(** ** What a reply or a hide leaves alone *)


Lemma confined_refl (t : addr) (s : State) : confined t s s.
Proof. split; [intros a p H; exact H|reflexivity|reflexivity]. Qed.

Lemma confined_trans (t : addr) (s1 s2 s3 : State) :
  confined t s1 s2 -> confined t s2 s3 -> confined t s1 s3.
Proof.
  intros [P1 T1 C1] [P2 T2 C2]. split.
  - intros a p H. apply P2, P1, H.
  - intros t' Hne. rewrite T2, T1 by exact Hne. reflexivity.
  - congruence.
Qed.

Lemma steps_bind_trans {A B : Type} (R : State -> State -> Prop)
  (m : M A) (k : A -> M B) :
  (forall s1 s2 s3, R s1 s2 -> R s2 s3 -> R s1 s3) ->
  steps R m -> (forall a, steps R (k a)) -> steps R (bind m k).
Proof.
  intros Htrans Hm Hk s. unfold bind. specialize (Hm s).
  destruct (m s) as [a s1|s1| |]; auto.
  specialize (Hk a s1). destruct (k a s1) as [b s2|s2| |]; eauto.
Qed.

Lemma steps_final_of {A : Type} (R : State -> State -> Prop) (m : M A)
  (s s' : State) :
  steps R m -> final (m s) = Some s' -> R s s'.
Proof.
  intros Hm. specialize (Hm s).
  destruct (m s); simpl; intros [= <-] || discriminate; exact Hm.
Qed.

Lemma confined_bind {A B : Type} (t : addr) (m : M A) (k : A -> M B) :
  steps (confined t) m -> (forall a, steps (confined t) (k a)) ->
  steps (confined t) (bind m k).
Proof. apply steps_bind_trans. apply confined_trans. Qed.

Lemma confined_ret {A : Type} (t : addr) (a : A) :
  steps (confined t) (ret a).
Proof. intros s. apply confined_refl. Qed.

Lemma confined_type_error {A : Type} (t : addr) :
  steps (confined t) (@type_error A).
Proof. intros s. apply confined_refl. Qed.

Lemma confined_get_post (t a : addr) : steps (confined t) (get_post a).
Proof.
  intros s. unfold get_post.
  destruct (posts s !! a); [apply confined_refl|exact I].
Qed.

Lemma confined_get_thread (t t0 : addr) :
  steps (confined t) (get_thread t0).
Proof.
  intros s. unfold get_thread.
  destruct (threadObjs s !! t0); [apply confined_refl|exact I].
Qed.

Lemma confined_new_post (t : addr) (p : Post) :
  steps (confined t) (new_post p).
Proof.
  intros s. unfold new_post. split; try reflexivity.
  intros a q. apply lookup_snoc_old.
Qed.

Lemma confined_put_thread (t : addr) (T : Thread) :
  steps (confined t) (put_thread t T).
Proof.
  intros s. unfold put_thread, modify. split.
  - intros a p H. exact H.
  - intros t' Hne. simpl. apply list_lookup_insert_ne. congruence.
  - simpl. apply length_insert.
Qed.

Lemma confined_set_parent (t v : addr) :
  steps (confined t) (set_parent t v).
Proof.
  unfold set_parent. apply confined_bind; [apply confined_get_thread|].
  intros T. apply confined_put_thread.
Qed.

Lemma confined_set_children (t : addr) (v : list value) :
  steps (confined t) (set_children t v).
Proof.
  unfold set_children. apply confined_bind; [apply confined_get_thread|].
  intros T. apply confined_put_thread.
Qed.

Create HintDb confined.
#[local] Hint Resolve confined_ret confined_type_error confined_get_post
  confined_get_thread confined_new_post confined_set_parent
  confined_set_children : confined.

Ltac confined_tac :=
  repeat first
    [ solve [auto with confined]
    | apply confined_bind; [solve [auto with confined]|intros ?]
    | match goal with
      | |- steps _ (if ?b then _ else _) => destruct b
      | |- steps _ (match ?x with _ => _ end) => destruct x
      end ].

Lemma confined_findIndex_from (t : addr) (l : list value) (id : string) :
  forall i, steps (confined t) (findIndex_from i l id).
Proof.
  induction l as [|[|a] l IH]; intros i; simpl.
  - apply confined_ret.
  - apply confined_type_error.
  - apply confined_bind; [apply confined_get_post|]. intros p.
    destruct (String.eqb (PostHashHex p) id); [apply confined_ret|apply IH].
Qed.

Lemma confined_bump_parent (t : addr) (d : Z) :
  steps (confined t) (bump_parent t d).
Proof. unfold bump_parent. confined_tac. Qed.

Lemma confined_copy_parent (t : addr) :
  steps (confined t) (copy_parent t).
Proof. unfold copy_parent. confined_tac. Qed.

Lemma confined_opt_PostHashHex (t : addr) (v : option value) :
  steps (confined t) (opt_PostHashHex v).
Proof. destruct v as [[|a]|]; simpl; confined_tac. Qed.

#[local] Hint Resolve confined_findIndex_from confined_bump_parent
  confined_copy_parent confined_opt_PostHashHex : confined.

(** X13.  Whether it returns or throws, [addReplyToComment] writes into no
    existing [Post] object, creates no [Thread] object, and changes no
    [Thread] object other than the one registered under the thread id. *)
Theorem addReplyToComment_confined (tid : string) (rp reply : addr)
  (s s' : State) :
  final (addReplyToComment tid rp reply s) = Some s' ->
  posts_kept s s'
  /\ length (threadObjs s') = length (threadObjs s)
  /\ forall t', JsMap.get tid (threadMap s) <> Some t' ->
                threadObjs s' !! t' = threadObjs s !! t'.
Proof.
  unfold addReplyToComment.
  rewrite (bind_Ret _ _ _ _ _ (gets_eq _ _)).
  destruct (JsMap.get tid (threadMap s)) as [t|].
  - match goal with
    | |- final (?m s) = _ -> _ => assert (Hs : steps (confined t) m)
    end.
    { unfold findIndex. confined_tac. }
    intros Hfin. pose proof (steps_final_of _ _ _ _ Hs Hfin) as [Hp Ht Hc].
    split; [exact Hp|]. split; [exact Hc|].
    intros t' Hne. apply Ht. congruence.
  - intros [= <-]. split; [intros a p H; exact H|]. split; reflexivity.
Qed.

(** X14.  Whether it returns or throws, [hideComment] leaves every
    existing [Post] object as it was, except that [commentToHide] gets
    [IsHidden = true]; it creates no [Thread] object and changes none
    other than the one registered under the thread id. *)
Theorem hideComment_writes_one_field (c pc : addr) (tid : string)
  (s s' : State) :
  final (hideComment c pc tid s) = Some s' ->
  (forall a p,
     posts s !! a = Some p ->
     posts s' !! a
     = Some (if Nat.eqb a c then with_IsHidden true p else p))
  /\ length (threadObjs s') = length (threadObjs s)
  /\ forall t', JsMap.get tid (threadMap s) <> Some t' ->
                threadObjs s' !! t' = threadObjs s !! t'.
Proof.
  unfold hideComment, getThread.
  rewrite (bind_Ret _ _ _ _ _ (gets_eq _ _)).
  destruct (posts s !! c) as [C|] eqn:Hc;
    [rewrite (bind_Ret _ _ _ _ _ (get_post_Some _ _ _ Hc))
    |rewrite (bind_Dangling _ _ _ (get_post_None _ _ Hc)); discriminate].
  rewrite (bind_Ret _ _ _ _ _ (put_post_hidden _ _ _)).
  assert (Hhid : forall a p,
             posts s !! a = Some p ->
             posts (hidden s c C) !! a
             = Some (if Nat.eqb a c then with_IsHidden true p else p)).
  { intros a p Ha. simpl. destruct (Nat.eqb_spec a c) as [->|Hne].
    - rewrite (lookup_insert_same _ _ _ _ Hc). congruence.
    - rewrite list_lookup_insert_ne by congruence. exact Ha. }
  set (t0 := match JsMap.get tid (threadMap s) with
             | Some t => t
             | None => 0%nat
             end).
  match goal with
  | |- final (?m (hidden s c C)) = _ -> _ =>
      assert (Hs : steps (confined t0) m)
  end.
  { subst t0. destruct (JsMap.get tid (threadMap s)) as [t|];
      unfold findIndex; confined_tac. }
  intros Hfin. pose proof (steps_final_of _ _ _ _ Hs Hfin) as [Hp Ht Hcnt].
  split; [intros a p Ha; apply Hp, Hhid, Ha|].
  split; [exact Hcnt|].
  intros t' Hne.
  destruct (JsMap.get tid (threadMap s)) as [t|] eqn:Hget.
  - apply Ht. subst t0. congruence.
  - clear Hs Hp Ht Hcnt. revert Hfin.
    unfold bind, get_post.
    destruct (posts (hidden s c C) !! pc) as [PC|]; [|discriminate].
    destruct (String.eqb (PostHashHex PC) tid); intros [= <-]; reflexivity.
Qed.

(** ** A reply followed by hiding it *)

Lemma addReply_tail_run (tid : string) (rp reply t x : addr)
  (T : Thread) (RP X Par : Post) (pre : list value) (s : State) :
  JsMap.get tid (threadMap s) = Some t ->
  threadObjs s !! t = Some T ->
  posts s !! parent T = Some Par ->
  children T = pre ++ [ref x] ->
  posts s !! x = Some X ->
  posts s !! rp = Some RP ->
  PostHashHex RP = PostHashHex X ->
  addReplyToComment tid rp reply s
  = Ret tt (updated s [with_CommentCount (CommentCount X + 1) X; Par] t
              (mkThread (S (length (posts s)))
                 (pre ++ [ref (length (posts s)); ref reply]))).
Proof.
  intros Hget Ht Hpar Hch Hx Hrp Hid.
  enter_addReply Hget Ht Hrp.
  rewrite Hch, last_child_snoc. cbn [andb negb truthy].
  rewrite andb_false_r.
  rewrite (bind_Ret _ _ _ _ _ (opt_PostHashHex_ref _ _ _ Hx)).
  unfold strict_eq. rewrite Hid, String.eqb_refl.
  rewrite (bind_Ret _ _ _ _ _ (get_post_Some _ _ _ Hx)).
  unfold bind at 1. unfold new_post.
  set (s1 := with_posts _ s).
  assert (Ht1 : threadObjs s1 !! t = Some T) by exact Ht.
  assert (Hpar1 : posts s1 !! parent T = Some Par).
  { subst s1. simpl. apply lookup_snoc_old; exact Hpar. }
  rewrite (bind_Ret _ _ _ _ _ (copy_parent_Some _ _ _ _ Ht1 Hpar1)).
  set (s2 := updated s1 _ _ _).
  assert (Ht2 : threadObjs s2 !! t
                = Some (mkThread (length (posts s1)) (children T))).
  { subst s2. simpl. eapply lookup_insert_same; exact Ht. }
  rewrite (bind_Ret _ _ _ _ _ (get_thread_Some _ _ _ Ht2)).
  rewrite (set_children_Some _ _ _ _ Ht2).
  cbn [children parent]. rewrite Hch.
  replace (Z.of_nat (length (pre ++ [ref x])) - 1)
    with (Z.of_nat (length pre)) by (rewrite length_app; simpl; lia).
  rewrite JsArrayFacts.slice_prefix.
  subst s2 s1. unfold updated, with_threadObjs, with_posts. simpl.
  rewrite insert_insert_same, <- app_assoc, length_app. simpl.
  replace (length (posts s) + 1)%nat with (S (length (posts s))) by lia.
  reflexivity.
Qed.

Lemma hideComment_chain_run (tid : string) (c pc t x : addr) (T : Thread)
  (C PC X : Post) (pre post : list value) (s : State) :
  JsMap.get tid (threadMap s) = Some t ->
  threadObjs s !! t = Some T ->
  posts s !! c = Some C ->
  posts s !! pc = Some PC ->
  PostHashHex PC <> tid ->
  children T = pre ++ ref x :: post ->
  Forall (other_post (posts s) (PostHashHex PC)) pre ->
  posts (hidden s c C) !! x = Some X ->
  PostHashHex X = PostHashHex PC ->
  hideComment c pc tid s
  = Ret tt (updated (hidden s c C)
              [with_CommentCount (CommentCount X - 1) X] t
              (mkThread (parent T)
                 (pre ++ ref (length (posts s)) :: post))).
Proof.
  intros Hget Ht Hc Hpc Hne Hch Hpre Hx HX.
  destruct (hidden_lookup s c C pc PC Hc Hpc) as (PC1 & Hpc1 & Hid1 & _).
  assert (Ht1 : threadObjs (hidden s c C) !! t = Some T) by exact Ht.
  assert (Hlen : length (posts (hidden s c C)) = length (posts s)).
  { simpl. apply length_insert. }
  enter_hide Hc Hpc1. rewrite Hid1.
  destruct (String.eqb_spec (PostHashHex PC) tid) as [E|_];
    [contradiction|].
  rewrite Hget.
  rewrite (bind_Ret _ _ _ _ _ (get_thread_Some _ _ _ Ht1)).
  assert (Hfind : findIndex (children T) (PostHashHex PC) (hidden s c C)
                  = Ret (Z.of_nat (length pre)) (hidden s c C)).
  { unfold findIndex. rewrite Hch.
    rewrite (findIndex_from_found pre post x X (PostHashHex PC)
               (hidden s c C)); [reflexivity| |exact Hx|exact HX].
    eapply Forall_impl; [exact Hpre|]. intros v.
    apply other_post_hidden; exact Hc. }
  rewrite (bind_Ret _ _ _ _ _ Hfind).
  rewrite Hch, JsArrayFacts.at_index_middle.
  rewrite (bind_Ret _ _ _ _ _ (get_post_Some _ _ _ Hx)).
  unfold bind at 1. unfold new_post.
  erewrite bind_Ret by (apply get_thread_Some; exact Ht).
  erewrite set_children_Some by exact Ht.
  rewrite Hch, Nat2Z.id, Hlen.
  unfold updated, with_threadObjs, with_posts. simpl.
  rewrite insert_middle. reflexivity.
Qed.

Lemma with_CommentCount_back (X : Post) :
  with_CommentCount (CommentCount X + 1 - 1)
    (with_CommentCount (CommentCount X + 1) X) = X.
Proof.
  destruct X as [id cs n h]. unfold with_CommentCount. simpl.
  f_equal. lia.
Qed.

(** X15.  On a thread whose chain elements before the last child [X]
    are posts with ids other than that of [X], the id of [X] not being
    the thread id and its count being a safe integer: a reply [R] to [X]
    followed by [hideComment(R, X, T.id)] leaves in the slot of [X] an
    object with the fields [X] had, count included, while [R] stays in
    the chain, now with [IsHidden = true]. *)
Theorem reply_then_hide_restores_count (tid : string)
  (rp reply t x : addr) (T : Thread) (RP X Rp Par : Post)
  (pre : list value) (s : State) :
  JsMap.get tid (threadMap s) = Some t ->
  threadObjs s !! t = Some T ->
  posts s !! parent T = Some Par ->
  children T = pre ++ [ref x] ->
  posts s !! x = Some X ->
  posts s !! rp = Some RP ->
  PostHashHex RP = PostHashHex X ->
  PostHashHex X <> tid ->
  Forall (other_post (posts s) (PostHashHex X)) pre ->
  posts s !! reply = Some Rp ->
  safe_integer (CommentCount X) ->
  exists s',
    (addReplyToComment tid rp reply ;; hideComment reply rp tid) s
    = Ret tt s'
    /\ threadObjs s' !! t
       = Some (mkThread (S (length (posts s)))
                 (pre ++ [ref (S (S (length (posts s)))); ref reply]))
    /\ posts s' !! S (S (length (posts s))) = Some X
    /\ posts s' !! reply = Some (with_IsHidden true Rp)
    /\ posts s' !! S (length (posts s)) = Some Par.
Proof.
  intros Hget Ht Hpar Hch Hx Hrp Hid Hne Hpre Hreply _.
  rewrite (bind_Ret _ _ _ _ _
             (addReply_tail_run _ _ _ _ _ _ _ _ _ _ _
                Hget Ht Hpar Hch Hx Hrp Hid)).
  set (X1 := with_CommentCount (CommentCount X + 1) X).
  set (s1 := updated s _ _ _).
  assert (Hlt : (reply < length (posts s))%nat)
    by (eapply lookup_lt_Some; exact Hreply).
  assert (Hold : forall a p, posts s !! a = Some p ->
                             posts s1 !! a = Some p).
  { intros a p Ha. subst s1. simpl. apply lookup_app_l_Some. exact Ha. }
  assert (Hx1 : posts (hidden s1 reply Rp) !! length (posts s) = Some X1).
  { subst s1. simpl. rewrite list_lookup_insert_ne by lia.
    apply list_lookup_middle. reflexivity. }
  set (T1 := mkThread (S (length (posts s)))
               (pre ++ [ref (length (posts s)); ref reply])).
  assert (Ht1 : threadObjs s1 !! t = Some T1).
  { subst s1. simpl. eapply lookup_insert_same; exact Ht. }
  assert (Hpre1 : Forall (other_post (posts s1) (PostHashHex RP)) pre).
  { rewrite Hid. eapply Forall_impl; [exact Hpre|].
    intros v (a & p & -> & Ha & Hn).
    exists a, p. split; [reflexivity|]. split; [|exact Hn].
    apply Hold. exact Ha. }
  assert (Hne1 : PostHashHex RP <> tid) by (rewrite Hid; exact Hne).
  assert (HX1 : PostHashHex X1 = PostHashHex RP)
    by (subst X1; simpl; symmetry; exact Hid).
  rewrite (hideComment_chain_run tid reply rp t (length (posts s)) T1
             Rp RP X1 pre [ref reply] s1 Hget Ht1 (Hold _ _ Hreply)
             (Hold _ _ Hrp) Hne1 eq_refl Hpre1 Hx1 HX1).
  eexists. split; [reflexivity|]. subst s1 T1. simpl.
  rewrite (lookup_insert_same _ _ _ _ (lookup_insert_same _ _ _ _ Ht)).
  rewrite !length_app. simpl.
  replace (length (posts s) + 2)%nat with (S (S (length (posts s))))
    by lia.
  split; [reflexivity|].
  assert (Hlen2 : length (<[reply := with_IsHidden true Rp]>
                             (posts s ++ [X1; Par]))
                  = S (S (length (posts s)))).
  { rewrite length_insert, length_app. simpl. lia. }
  split.
  - rewrite <- Hlen2 at 1. rewrite lookup_snoc_new. f_equal.
    subst X1.
    change (CommentCount (with_CommentCount (CommentCount X + 1) X))
      with (CommentCount X + 1).
    apply with_CommentCount_back.
  - split.
    + apply lookup_app_l_Some. apply list_lookup_insert_eq.
      rewrite length_app. lia.
    + apply lookup_app_l_Some. rewrite list_lookup_insert_ne by lia.
      replace (posts s ++ [X1; Par]) with ((posts s ++ [X1]) ++ [Par])
        by (rewrite <- app_assoc; reflexivity).
      replace (S (length (posts s))) with (length (posts s ++ [X1]))
        by (rewrite length_app; simpl; lia).
      apply lookup_snoc_new.
Qed.


Lemma flattenThread_no_comments_witness :
  flattenThread 0 3%nat Ex.s
  = Ret 1%nat (with_threadObjs (fun ts => ts ++ [mkThread 3%nat []]) Ex.s).
Proof.
  apply (flattenThread_no_comments 0 3%nat Ex.Y Ex.s);
    [reflexivity|left; reflexivity].
Defined.

Lemma flattenThread_first_child_only_witness :
  flattenThread 2 0%nat Fan.store
  = Ret 0%nat
      (with_threadObjs
         (fun ts => ts ++ [mkThread 0%nat [ref 1%nat; ref 2%nat]])
         Fan.store).
Proof.
  apply (flattenThread_first_child_only 2 0%nat 1%nat 2%nat Fan.P Fan.A
           Fan.B [3%nat] Fan.store); solve [reflexivity | lia].
Defined.

Lemma flattenThread_keeps_every_reply_witness :
  flattenThread 1 1%nat Fan.store
  = Ret 0%nat
      (with_threadObjs
         (fun ts => ts ++ [mkThread 1%nat [ref 2%nat; ref 3%nat]])
         Fan.store).
Proof.
  apply (flattenThread_keeps_every_reply 1 1%nat Fan.A [2%nat; 3%nat]
           Fan.store); try reflexivity; try lia.
  apply List.Forall_cons; [exists Fan.B; split; reflexivity|].
  apply List.Forall_cons; [exists Fan.C; split; reflexivity|].
  apply List.Forall_nil.
Defined.

Lemma walkSubcomments_calls_back_along_chain_witness :
  walkSubcomments 3 (ref 1%nat) record_visit Chain.store
  = forEach [ref 1%nat; ref 2%nat; undefined] record_visit Chain.store.
Proof.
  apply (walkSubcomments_calls_back_along_chain 3 record_visit).
  - intros w s1. eexists. split; reflexivity.
  - reflexivity.
Defined.

Lemma flattenThread_terminates_witness :
  exists fuel0 ch,
    forall fuel, (fuel0 <= fuel)%nat ->
      flattenThread fuel 1%nat Fan.store
      = Ret 0%nat
          (with_threadObjs (fun ts => ts ++ [mkThread 1%nat ch]) Fan.store).
Proof.
  apply (flattenThread_terminates 1%nat Fan.store).
  exists Fan.A. split; [reflexivity|]. intros arr [= <-].
  apply List.Forall_cons;
    [apply (walk_ends_null _ 2%nat Fan.B); reflexivity|].
  apply List.Forall_cons;
    [apply (walk_ends_null _ 3%nat Fan.C); reflexivity|].
  apply List.Forall_nil.
Defined.

Lemma flattenThread_diverges_on_cycle_witness :
  flattenThread 1000 0%nat Loop.store = OutOfFuel.
Proof.
  apply (flattenThread_diverges_on_cycle 1000 0%nat 1%nat Loop.P Loop.A
           [] [] Loop.store); reflexivity.
Defined.

Lemma appendComment_registers_witness :
  exists s',
    appendComment 1 7%nat Ex.s = Ret tt s'
    /\ getThread "N" s' = Ret (Some 1%nat) s'
    /\ threadObjs s' !! 1%nat = Some (mkThread 7%nat [ref 5%nat])
    /\ (forall k, k <> "N" ->
                  JsMap.get k (threadMap s') = JsMap.get k (threadMap Ex.s))
    /\ JsMap.keys (threadMap s') = ["T"; "N"]
    /\ (forall t T, threadObjs Ex.s !! t = Some T ->
                    threadObjs s' !! t = Some T)
    /\ posts s' = posts Ex.s
    /\ threadArrayCache s' = None.
Proof.
  apply (appendComment_registers 1 7%nat Ex.N [ref 5%nat] Ex.s);
    reflexivity.
Defined.

Lemma removeThread_forgets_witness :
  exists s',
    removeThread "B" Fan.built = Ret tt s'
    /\ getThread "B" s' = Ret None s'
    /\ (forall k0, k0 <> "B" ->
          JsMap.get k0 (threadMap s') = JsMap.get k0 (threadMap Fan.built))
    /\ (JsMap.get "B" (threadMap Fan.built) = None ->
        threadMap s' = threadMap Fan.built)
    /\ (forall t, JsMap.get "B" (threadMap Fan.built) = Some t ->
          exists m1 m2, threadMap Fan.built = m1 ++ ("B", t) :: m2
                        /\ threadMap s' = m1 ++ m2)
    /\ threadObjs s' = threadObjs Fan.built
    /\ posts s' = posts Fan.built
    /\ threadArrayCache s' = None.
Proof.
  apply (removeThread_forgets "B" Fan.built).
  apply List.NoDup_cons; [intros [E|[]]; discriminate E|].
  apply List.NoDup_cons; [intros []|apply List.NoDup_nil].
Defined.

Lemma threads_lists_the_map_witness :
  exists a s',
    threads Fan.built = Ret a s'
    /\ arrays s' !! a = Some [0%nat; 1%nat]
    /\ threadCount s' = Ret 2%nat s'
    /\ threadMap s' = threadMap Fan.built
    /\ threadObjs s' = threadObjs Fan.built
    /\ posts s' = posts Fan.built.
Proof.
  apply (threads_lists_the_map Fan.built).
  apply (reach_new 1 1%nat Fan.store). reflexivity.
Defined.

Lemma constructor_registers_replies_witness :
  constructor 0 2%nat Fan.store
  = Ret tt (mkState [Fan.P; Fan.A; Fan.B; Fan.C] [] [] [] None)
  /\ exists s,
       constructor 1 1%nat Fan.store = Ret tt s
       /\ s = Fan.built
       /\ threadCount s = Ret 2%nat s.
Proof.
  split.
  - apply (proj1 (constructor_registers_replies 0 2%nat Fan.B Fan.store
                    eq_refl)). reflexivity.
  - apply (proj2 (constructor_registers_replies 1 1%nat Fan.A Fan.store
                    eq_refl)
             [(2%nat, Fan.B, []); (3%nat, Fan.C, [])]).
    + reflexivity.
    + apply List.Forall_cons; [split; reflexivity|].
      apply List.Forall_cons; [split; reflexivity|].
      apply List.Forall_nil.
    + apply List.NoDup_cons; [intros [E|[]]; discriminate E|].
      apply List.NoDup_cons; [intros []|apply List.NoDup_nil].
Defined.

Lemma prependComment_registered_moves_to_front_witness :
  exists s',
    prependComment 1 3%nat Fan.built = Ret tt s'
    /\ threadMap s' = [("C", 1%nat); ("B", 0%nat)]
    /\ threadObjs s' = threadObjs Fan.built ++ [mkThread 3%nat []]
    /\ posts s' = posts Fan.built
    /\ threadArrayCache s' = None.
Proof.
  apply (prependComment_registered_moves_to_front 1 3%nat Fan.C []
           [("B", 0%nat)] [] 1%nat Fan.built).
  - apply (reach_new 1 1%nat Fan.store). reflexivity.
  - reflexivity.
  - reflexivity.
  - reflexivity.
Defined.

Lemma addReplyToComment_confined_witness :
  posts_kept Ex.s After.replied
  /\ length (threadObjs After.replied) = length (threadObjs Ex.s)
  /\ forall t', JsMap.get "T" (threadMap Ex.s) <> Some t' ->
                threadObjs After.replied !! t' = threadObjs Ex.s !! t'.
Proof.
  apply (addReplyToComment_confined "T" 3%nat 4%nat Ex.s After.replied).
  reflexivity.
Defined.

Lemma hideComment_writes_one_field_witness :
  (forall a p,
     posts Ex.s !! a = Some p ->
     posts After.hid !! a
     = Some (if Nat.eqb a 3%nat then with_IsHidden true p else p))
  /\ length (threadObjs After.hid) = length (threadObjs Ex.s)
  /\ forall t', JsMap.get "T" (threadMap Ex.s) <> Some t' ->
                threadObjs After.hid !! t' = threadObjs Ex.s !! t'.
Proof.
  apply (hideComment_writes_one_field 3%nat 1%nat "T" Ex.s After.hid).
  reflexivity.
Defined.

Lemma reply_then_hide_restores_count_witness :
  exists s',
    (addReplyToComment "T" 3%nat 4%nat ;; hideComment 4%nat 3%nat "T") Ex.s
    = Ret tt s'
    /\ threadObjs s' !! 0%nat
       = Some (mkThread 9%nat [ref 2%nat; ref 10%nat; ref 4%nat])
    /\ posts s' !! 10%nat = Some Ex.Y
    /\ posts s' !! 4%nat = Some (with_IsHidden true Ex.R)
    /\ posts s' !! 9%nat = Some Ex.T.
Proof.
  apply (reply_then_hide_restores_count "T" 3%nat 4%nat 0%nat 3%nat
           Ex.thread_T Ex.Y Ex.Y Ex.R Ex.T [ref 2%nat] Ex.s);
    try reflexivity; try discriminate; try safe_literal.
  other_posts.
Defined.
